(** * wildlife-cameras: the camera coordinator and the fleet dashboard

    A shallow embedding of [rpi-cam-server/rpi-cam-server.py] (the
    [CameraManager] class) and of [hub/dashboard.py] (the camera list,
    the [_run] helper and the routes), with the properties of both that
    the specification states and further properties of the code.

    Conventions of the embedding:
    - a Python [str] is a [string]; a character is an [ascii];
    - a Python [int] is a [Z]; a reading of [time.time()] is a rational [Q]
      (the float is read as the real number it denotes);
    - [None]-or-value is an [option];
    - an exception is a value of an error type, threaded by a state and
      exception monad ([Camera.StateExn]) or returned in a sum
      ([Dashboard._run]);
    - what lies outside the repository ([Picamera2], ffmpeg, OpenCV,
      [subprocess]) is a parameter: every call of the camera stack may
      succeed or raise;
    - threads interleave at the granularity of the pieces of code that
      touch the shared fields under a lock ([Camera.action]); a thread
      that runs alone is a computation of the monad, and what it does is
      read from the log it leaves ([Camera.trace]). *)

From Stdlib Require Import ZArith QArith Qround String Ascii List Bool Lia Lqa.
From Stdlib Require Import Sorted Relations.
From stdpp Require Import gmap strings list.

Import ListNotations.
Local Open Scope string_scope.

(** ** Python helpers shared by both programs *)

Module Py.

(** [s[k:]] for [0 <= k]. *)
Fixpoint drop_chars (k : nat) (s : string) : string :=
  match k, s with
  | O, _ => s
  | S _, EmptyString => EmptyString
  | S k', String _ s' => drop_chars k' s'
  end.

(** [s[-n:]] for [0 < n]: the whole string when it has at most [n]
    characters, its last [n] characters otherwise. *)
Definition last_chars (n : nat) (s : string) : string :=
  drop_chars (String.length s - n) s.

(** [x or d] on an optional string: [None] and the empty string are
    both falsy. *)
Definition or_str (x : option string) (d : string) : string :=
  match x with
  | Some (String c s) => String c s
  | Some EmptyString | None => d
  end.

(** [sep.join(parts)]. *)
Fixpoint join (sep : string) (parts : list string) : string :=
  match parts with
  | [] => EmptyString
  | [p] => p
  | p :: rest => p ++ sep ++ join sep rest
  end.

(** [round(x, 2)]: the nearest multiple of 1/100, ties to the even one. *)
Definition round_half_even (q : Q) : Z :=
  let f := Qfloor q in
  match Qcompare (q - inject_Z f) (1 # 2) with
  | Lt => f
  | Gt => (f + 1)%Z
  | Eq => if Z.even f then f else (f + 1)%Z
  end.

Definition round2 (q : Q) : Q :=
  Qmake (round_half_even (q * 100)) 100.

(** *** Text: [strip], [split], [splitlines]

    Characters are code points below 256. *)

(** [c.isspace()] for a character below 256. *)
Definition is_space (c : ascii) : bool :=
  let n := nat_of_ascii c in
  ((9 <=? n)%nat && (n <=? 13)%nat) || ((28 <=? n)%nat && (n <=? 32)%nat)
  || (n =? 133)%nat || (n =? 160)%nat.

(** The line boundaries of [str.splitlines] below 256. *)
Definition is_linebreak (c : ascii) : bool :=
  let n := nat_of_ascii c in
  ((10 <=? n)%nat && (n <=? 13)%nat) || ((28 <=? n)%nat && (n <=? 30)%nat)
  || (n =? 133)%nat.

Definition LF : ascii := "010"%char.
Definition CR : ascii := "013"%char.

Fixpoint lstrip (s : string) : string :=
  match s with
  | String c s' => if is_space c then lstrip s' else s
  | EmptyString => EmptyString
  end.

Fixpoint rstrip (s : string) : string :=
  match s with
  | String c s' =>
      match rstrip s' with
      | EmptyString => if is_space c then EmptyString else String c EmptyString
      | r => String c r
      end
  | EmptyString => EmptyString
  end.

(** [s.strip()]. *)
Definition strip (s : string) : string := rstrip (lstrip s).

(** [s.split(sep)] for a separator of one character. *)
Fixpoint split (sep : ascii) (s : string) : list string :=
  match s with
  | EmptyString => [EmptyString]
  | String c s' =>
      if Ascii.eqb c sep then EmptyString :: split sep s'
      else match split sep s' with
           | p :: ps => String c p :: ps
           | [] => [String c EmptyString]
           end
  end.

(** [s.splitlines()]. *)
Fixpoint splitlines (s : string) : list string :=
  match s with
  | EmptyString => []
  | String c s' =>
      if is_linebreak c then
        EmptyString ::
          match s' with
          | String c' s'' =>
              if Ascii.eqb c CR && Ascii.eqb c' LF then splitlines s''
              else splitlines s'
          | EmptyString => []
          end
      else match splitlines s' with
           | l :: ls => String c l :: ls
           | [] => [String c EmptyString]
           end
  end.

(** [s.startswith(c)] for one character. *)
Definition startswith (c : ascii) (s : string) : bool :=
  match s with
  | String c' _ => Ascii.eqb c' c
  | EmptyString => false
  end.

(** [c in s]. *)
Fixpoint contains (c : ascii) (s : string) : bool :=
  match s with
  | String c' s' => Ascii.eqb c' c || contains c s'
  | EmptyString => false
  end.

(** [c.lower()] for a character below 256. *)
Definition lower_char (c : ascii) : ascii :=
  let n := nat_of_ascii c in
  if ((65 <=? n)%nat && (n <=? 90)%nat)
     || ((192 <=? n)%nat && (n <=? 222)%nat && negb (n =? 215)%nat)
  then ascii_of_nat (n + 32) else c.

(** [s.lower()]. *)
Fixpoint lower (s : string) : string :=
  match s with
  | EmptyString => EmptyString
  | String c s' => String (lower_char c) (lower s')
  end.

(** [s.endswith(suffix)]. *)
Definition endswith (suffix s : string) : bool :=
  (String.length suffix <=? String.length s)%nat
  && String.eqb
       (drop_chars (String.length s - String.length suffix) s) suffix.

(** [sorted(names)] on strings: the order of the code points. *)
Fixpoint insert_sorted (x : string) (l : list string) : list string :=
  match l with
  | [] => [x]
  | y :: l' => if String.leb x y then x :: l else y :: insert_sorted x l'
  end.

Definition sorted (l : list string) : list string :=
  fold_right insert_sorted [] l.

(** [a <= b] on strings. *)
Definition le_str (a b : string) : Prop := String.leb a b = true.

End Py.

(** ** hub/dashboard.py *)

Module Dashboard.

(** *** shlex.quote (Python standard library) *)

Definition squote : ascii := "039"%char.
Definition dquote : ascii := "034"%char.

(** The characters outside the class [[^\w@%+=:,./-]] (ASCII [\w]). *)
Definition is_safe_char (c : ascii) : bool :=
  let n := nat_of_ascii c in
  ((48 <=? n)%nat && (n <=? 57)%nat)          (* 0-9 *)
  || ((65 <=? n)%nat && (n <=? 90)%nat)       (* A-Z *)
  || ((97 <=? n)%nat && (n <=? 122)%nat)      (* a-z *)
  || existsb (Nat.eqb n)
       [95; 64; 37; 43; 61; 58; 44; 46; 47; 45]%nat. (* _ @ % + = : , . / - *)

Fixpoint all_safe (s : string) : bool :=
  match s with
  | EmptyString => true
  | String c s' => is_safe_char c && all_safe s'
  end.

(** [s.replace("'", "'\"'\"'")]. *)
Fixpoint escape_squotes (s : string) : string :=
  match s with
  | EmptyString => EmptyString
  | String c s' =>
      if Ascii.eqb c squote
      then String squote (String dquote (String squote (String dquote
             (String squote (escape_squotes s')))))
      else String c (escape_squotes s')
  end.

Definition shlex_quote (s : string) : string :=
  match s with
  | EmptyString => String squote (String squote EmptyString)
  | _ =>
      if all_safe s then s
      else String squote (escape_squotes s ++ String squote EmptyString)
  end.

(** *** subprocess.run *)

(** What [subprocess.run(cmd, capture_output=True, text=True,
    timeout=timeout)] does: the child exits ([CompletedProcess]), the
    timeout expires ([TimeoutExpired], whose [stdout] and [stderr] are
    what was captured so far, or [None]; they are [bytes], not decoded,
    and a [string] holds their code points), or the child cannot be
    started (any other exception, which [_run] does not catch). *)
Inductive proc_outcome :=
| Completed (returncode : Z) (stdout stderr : string)
| TimeoutExpired (stdout stderr : option string)
| OtherError (msg : string).

(** The dict that [_run] returns. *)
Record run_result := {
  ok : bool;
  returncode : option Z;
  stdout : string;
  stderr : string;
  seconds : Q;
  cmd : string;
}.

Definition OUTPUT_CAP : nat := Z.to_nat 12000.

(** [_run(cmd, timeout)]: [started] and [finished] are the two readings
    of [time.time()], [run] is the behaviour of [subprocess.run]. *)
Definition _run (run : list string -> Z -> proc_outcome)
    (started finished : Q) (cmd : list string) (timeout : Z)
  : string + run_result :=
  match run cmd timeout with
  | Completed rc out err =>
      inr {| ok := (rc =? 0)%Z;
             returncode := Some rc;
             stdout := Py.last_chars OUTPUT_CAP out;
             stderr := Py.last_chars OUTPUT_CAP err;
             seconds := Py.round2 (finished - started);
             cmd := Py.join " " (map shlex_quote cmd) |}
  | TimeoutExpired out err =>
      inr {| ok := false;
             returncode := None;
             stdout := Py.last_chars OUTPUT_CAP (Py.or_str out "");
             stderr := Py.last_chars OUTPUT_CAP (Py.or_str err "Timed out");
             seconds := Py.round2 (finished - started);
             cmd := Py.join " " (map shlex_quote cmd) |}
  | OtherError msg => inl msg
  end.

(** [_run(cmd)] with the default [timeout=120]. *)
Definition DEFAULT_TIMEOUT : Z := 120.

(** Two children to run [_run] on: one that prints [n] characters and
    exits with status 0, one that is cut off by the timeout after it
    printed [text]. *)
Definition chatty (n : nat) : list string -> Z -> proc_outcome :=
  fun _ _ => Completed 0 (string_of_list_ascii (repeat "x"%char n)) "".

Definition stalled (text : string) : list string -> Z -> proc_outcome :=
  fun _ _ => TimeoutExpired (Some text) None.

(** *** The camera list *)

(** [@dataclass class Camera]. *)
Record Camera := {
  name : string;
  ssh : string;
  preview_base : option string;
}.

(** The body of the [for] loop of [_load_cameras] on one line. *)
Definition camera_of_line (raw : string) : list Camera :=
  let line := Py.strip raw in
  if String.eqb line "" || Py.startswith "#" line then []
  else
    match map Py.strip (Py.split "," line) with
    | [] => []
    | [ssh] =>
        [{| name := List.last (Py.split "@" ssh) ""; ssh := ssh;
            preview_base := None |}]
    | name :: ssh :: rest =>
        [{| name := name; ssh := ssh;
            preview_base :=
              match rest with
              | p :: _ => if String.eqb p "" then None else Some p
              | [] => None
              end |}]
    end.

(** [_load_cameras()]; [file] is the text of [cameras.txt], [None] when
    the file does not exist. *)
Definition _load_cameras (file : option string) : list Camera :=
  match file with
  | None => []
  | Some text => flat_map camera_of_line (Py.splitlines text)
  end.

(** *** The routes and the state file *)

Section Routes.
(** [WILDLIFE_SERVICE], [WILDLIFE_SSH_KEY], and what [subprocess.run]
    does. *)
Variables (SERVICE_NAME SSH_IDENTITY : string).
Variable run : list string -> Z -> proc_outcome.

Definition _ssh_cmd (host remote_cmd : string) : list string :=
  (["ssh"; "-o"; "BatchMode=yes"]
   ++ (if String.eqb SSH_IDENTITY "" then [] else ["-i"; SSH_IDENTITY])
   ++ [host; remote_cmd])%list.

(** A value of [TimeoutExpired] that is truthy: non-empty [bytes]. *)
Definition captured (x : option string) : bool :=
  match x with
  | Some (String _ _) => true
  | Some EmptyString | None => false
  end.

(** Whether the dict that [_run] returns holds [bytes] under [stdout] or
    [stderr]: after a timeout, [e.stdout or d] is [e.stdout] itself when
    something was captured, and the [str] [d] otherwise; a completed
    child gives [str]. *)
Definition holds_bytes (cmd : list string) (timeout : Z) : bool :=
  match run cmd timeout with
  | TimeoutExpired out err => captured out || captured err
  | Completed _ _ _ | OtherError _ => false
  end.

(** The [result] entry of the state: what [_run] returned, with whether
    it holds [bytes], or the dict [{"ok": False, "stderr": ...}]. *)
Inductive report :=
| Ran (r : run_result) (raw : bool)
| Refused (stderr : string).

(** The payload of [_write_state], with its [ts]. *)
Record last_run := {
  action : string;
  result : report;
  ts : string;
}.

(** [state/last_run.json]: absent, not JSON, or the JSON of a payload. *)
Inductive state_file :=
| Absent
| Garbled
| Json (doc : last_run).

(** The hub: the two files and the commands launched so far. *)
Record hub := {
  cameras_txt : option string;
  last_run_json : state_file;
  launched : list (list string * Z);
}.

(** The [TypeError] of [json.dumps] on [bytes]. *)
Definition BYTES_NOT_JSON : string :=
  "Object of type bytes is not JSON serializable".

(** [_write_state(payload)]: [json.dumps] raises on a payload that holds
    [bytes], before the file is opened. *)
Definition _write_state (now : string) (act : string) (res : report) (h : hub)
  : option string * hub :=
  match res with
  | Ran _ true => (Some BYTES_NOT_JSON, h)
  | Ran _ false | Refused _ =>
      (None,
       {| cameras_txt := cameras_txt h;
          last_run_json := Json {| action := act; result := res; ts := now |};
          launched := launched h |})
  end.

(** [_read_state()]; [None] is [{"ts": None, "last": None}]. *)
Definition _read_state (h : hub) : option last_run :=
  match last_run_json h with
  | Json doc => Some doc
  | Absent | Garbled => None
  end.

Definition launch (argv : list string) (timeout : Z) (h : hub) : hub :=
  {| cameras_txt := cameras_txt h; last_run_json := last_run_json h;
     launched := (launched h ++ [(argv, timeout)])%list |}.

Definition restart_command : string :=
  "sudo systemctl restart " ++ SERVICE_NAME
  ++ " && systemctl --no-pager --full status " ++ SERVICE_NAME
  ++ " | head -n 20".

(** [restart(name)]; the error is an exception of [subprocess.run] that
    [_run] lets through, or the one of [_write_state]. *)
Definition restart (started finished : Q) (now : string) (nm : string)
    (h : hub) : option string * hub :=
  match List.find (fun c => String.eqb (name c) nm)
          (_load_cameras (cameras_txt h)) with
  | None =>
      _write_state now "restart" (Refused ("Unknown camera: " ++ nm)) h
  | Some cam =>
      let argv := _ssh_cmd (ssh cam) restart_command in
      match _run run started finished argv 120 with
      | inl e => (Some e, launch argv 120 h)
      | inr res =>
          _write_state now ("restart:" ++ nm) (Ran res (holds_bytes argv 120))
            (launch argv 120 h)
      end
  end.

(** [update_all()]; [script] is [str(UPDATE_SCRIPT)]. *)
Definition update_all (started finished : Q) (now : string) (script : string)
    (h : hub) : option string * hub :=
  let argv := ["bash"; script] in
  match _run run started finished argv 600 with
  | inl e => (Some e, launch argv 600 h)
  | inr res =>
      _write_state now "update_all" (Ran res (holds_bytes argv 600))
        (launch argv 600 h)
  end.

End Routes.

(** A camera list of three lines, the cameras it holds, and a hub that
    has it and has run nothing yet. *)
Definition two_cameras : string :=
  "# fleet" ++ String Py.LF ("garden, pi@cam1, http://cam1:8000"
  ++ String Py.LF ("pi@cam2" ++ String Py.LF "")).

Definition garden : Camera :=
  {| name := "garden"; ssh := "pi@cam1";
     preview_base := Some "http://cam1:8000" |}.

Definition cam2 : Camera :=
  {| name := "cam2"; ssh := "pi@cam2"; preview_base := None |}.

Definition sample_hub : hub :=
  {| cameras_txt := Some two_cameras; last_run_json := Absent;
     launched := [] |}.

End Dashboard.

(** ** rpi-cam-server/rpi-cam-server.py *)

Module Camera.

(** *** Events, errors and the camera backend *)

(** The three [threading.Lock]s of [CameraManager.__init__]. *)
Inductive lock := FrameLock | CameraLock | RecordLock.

(** The [Picamera2] methods that the manager calls. *)
Inductive dev_op :=
| Configure | Start | Stop | StartRecording | StopRecording | CaptureArray.

(** Exceptions: a [Picamera2] method raised, the construction or the
    closing of the ffmpeg sink did, or [time.sleep] refused its argument. *)
Inductive exn :=
| DeviceError (op : dev_op)
| EncoderError
| OutputError
| OverflowError.

(** What a run leaves in the log, in order of occurrence: the lock
    operations, the calls made to the camera stack with their outcome,
    the sleeps, the writes of the session flag and of files, the start of
    a worker thread, the entry into [_restart_camera], and a trigger of
    the motion loop with what its request returned. *)
Inductive event :=
| Acquire (l : lock)
| Release (l : lock)
| Device (op : dev_op) (ok : bool)
| NewEncoder (ok : bool)
| NewOutput (path : string) (ok : bool)
| CloseOutput (path : string) (ok : bool)
| Sleep (secs : Q)
| SetRecording (b : bool)
| Imwrite (path : string)
| ThreadStart (duration : Z)
| RestartCamera
| MotionTrigger (now : Q) (duration : Z) (accepted : bool).

Inductive outcome (A : Type) :=
| Ok (a : A)
| Raise (e : exn).
Arguments Ok {A} a.
Arguments Raise {A} e.

(** A thread started by [start_record_clip_async] on [record_clip]. *)
Inductive worker :=
| Ready (duration : Z)       (* started, [record_clip] not yet entered *)
| Recording (duration : Z)   (* past the test-and-set: owns the session *)
| Finished (result : outcome (option string)).

(** The camera stack outside this repository: libcamera through
    [Picamera2], [H264Encoder] and [FfmpegOutput].  Every call may raise
    ([false], or [None] for a frame pull) and moves the backend to a new
    state.  [output_has_close] is [hasattr(output, "close")]. *)
Class Picamera2 (D Frame : Type) := {
  configure : D -> bool * D;
  start : D -> bool * D;
  stop : D -> bool * D;
  start_recording : D -> bool * D;
  stop_recording : D -> bool * D;
  capture_array : D -> option Frame * D;
  new_encoder : D -> bool * D;
  new_output : D -> bool * D;
  output_has_close : bool;
  output_close : D -> bool * D;
}.

(** The process: the fields of [CameraManager] that the operations below
    read or write ([video_config] is a constant, [_motion_enabled] and
    [_motion_thread] belong to [enable_motion]), the worker threads, the
    files written by [cv2.imwrite] (a path holds the encoding of a frame)
    and the log. *)
Record state {D Frame : Type} := {
  picam2 : D;
  base_dir : string;
  _preview_frame : option Frame;
  _preview_running : bool;
  _recording : bool;
  _motion_stop_evt : bool;
  workers : list worker;
  disk : gmap string Frame;
  trace : list event;
}.
Arguments state : clear implicits.

Definition DEFAULT_DURATION : Z := 30.   (* [duration: int = 30] *)
Definition MOTION_CLIP_DURATION : Z := 30. (* [start_record_clip_async(30)] *)
Definition COOLDOWN : Q := 40.           (* [now + 40] *)
Definition AREA_THRESHOLD : Q := 1500.   (* [contourArea(c) > 1500] *)
Definition SLEEP_LIMIT : Z := 9223372037. (* 2^63 ns, rounded up to a second *)

(** [base / name] on [pathlib.Path]. *)
Definition path_join (base name : string) : string := base ++ "/" ++ name.
Arguments path_join : simpl never.

(** *** The monad of a thread: state and exceptions *)

Definition StateExn (S A : Type) : Type := S -> outcome A * S.

Section Monad.
Context {S : Type}.
#[local] Abbreviation M := (StateExn S).

Definition ret {A} (a : A) : M A := fun s => (Ok a, s).

Definition bind {A B} (m : M A) (k : A -> M B) : M B := fun s =>
  match m s with
  | (Ok a, s') => k a s'
  | (Raise e, s') => (Raise e, s')
  end.

Definition raise {A} (e : exn) : M A := fun s => (Raise e, s).
Definition gets {A} (f : S -> A) : M A := fun s => (Ok (f s), s).
Definition modify (f : S -> S) : M unit := fun s => (Ok tt, f s).

(** Run [m] and hand its outcome over as a value. *)
Definition attempt {A} (m : M A) : M (outcome A) :=
  fun s => let '(r, s') := m s in (Ok r, s').

Definition reraise {A} (r : outcome A) : M A :=
  match r with Ok a => ret a | Raise e => raise e end.

Definition pass : exn -> M unit := fun _ => ret tt.

End Monad.

Declare Scope thread_scope.
Delimit Scope thread_scope with thread.
Notation "x <- m ;; k" := (bind m (fun x => k))
  (at level 100, m at next level, right associativity) : thread_scope.
Notation "m ;; k" := (bind m (fun _ => k))
  (at level 100, right associativity) : thread_scope.

Section Control.
Context {S : Type}.
#[local] Abbreviation M := (StateExn S).
#[local] Open Scope thread_scope.

(** [try: m  except Exception: h]. *)
Definition try_except {A} (m : M A) (h : exn -> M A) : M A :=
  r <- attempt m;; match r with Ok a => ret a | Raise e => h e end.

(** [try: m  finally: fin]. *)
Definition try_finally {A} (m : M A) (fin : M unit) : M A :=
  r <- attempt m;; fin;; reraise r.

(** [x = None; try: ...; x = pre; post(x)  finally: fin(x)]: the [finally]
    block sees the local [x] as it is when the [try] block is left. *)
Definition try_finally_local {L A}
    (pre : M L) (post : L -> M A) (fin : option L -> M unit) : M A :=
  r1 <- attempt pre;;
  match r1 with
  | Raise e => fin None;; raise e
  | Ok x => r2 <- attempt (post x);; fin (Some x);; reraise r2
  end.

End Control.

Section Manager.
Context {D Frame : Type} `{!Picamera2 D Frame}.

#[local] Abbreviation state := (state D Frame).

Definition set_picam2 (d : D) (s : state) : state :=
  {| picam2 := d; base_dir := base_dir s;
     _preview_frame := _preview_frame s;
     _preview_running := _preview_running s; _recording := _recording s;
     _motion_stop_evt := _motion_stop_evt s; workers := workers s;
     disk := disk s; trace := trace s |}.

Definition set_preview_frame (f : option Frame) (s : state) : state :=
  {| picam2 := picam2 s; base_dir := base_dir s;
     _preview_frame := f;
     _preview_running := _preview_running s; _recording := _recording s;
     _motion_stop_evt := _motion_stop_evt s; workers := workers s;
     disk := disk s; trace := trace s |}.

Definition set_recording (b : bool) (s : state) : state :=
  {| picam2 := picam2 s; base_dir := base_dir s;
     _preview_frame := _preview_frame s;
     _preview_running := _preview_running s; _recording := b;
     _motion_stop_evt := _motion_stop_evt s; workers := workers s;
     disk := disk s; trace := trace s |}.

Definition set_motion_stop_evt (b : bool) (s : state) : state :=
  {| picam2 := picam2 s; base_dir := base_dir s;
     _preview_frame := _preview_frame s;
     _preview_running := _preview_running s; _recording := _recording s;
     _motion_stop_evt := b; workers := workers s;
     disk := disk s; trace := trace s |}.

Definition set_workers (w : list worker) (s : state) : state :=
  {| picam2 := picam2 s; base_dir := base_dir s;
     _preview_frame := _preview_frame s;
     _preview_running := _preview_running s; _recording := _recording s;
     _motion_stop_evt := _motion_stop_evt s; workers := w;
     disk := disk s; trace := trace s |}.

Definition set_disk (m : gmap string Frame) (s : state) : state :=
  {| picam2 := picam2 s; base_dir := base_dir s;
     _preview_frame := _preview_frame s;
     _preview_running := _preview_running s; _recording := _recording s;
     _motion_stop_evt := _motion_stop_evt s; workers := workers s;
     disk := m; trace := trace s |}.

Definition log (e : event) (s : state) : state :=
  {| picam2 := picam2 s; base_dir := base_dir s;
     _preview_frame := _preview_frame s;
     _preview_running := _preview_running s; _recording := _recording s;
     _motion_stop_evt := _motion_stop_evt s; workers := workers s;
     disk := disk s; trace := trace s ++ [e] |}.

#[local] Abbreviation M := (StateExn state).
#[local] Open Scope thread_scope.

Definition emit (e : event) : M unit := modify (log e).

(** [with l: m]: the lock is released on every exit. *)
Definition with_lock {A} (l : lock) (m : M A) : M A :=
  emit (Acquire l);; try_finally m (emit (Release l)).

(** A call of a [Picamera2] method. *)
Definition call (op : dev_op) (f : D -> bool * D) : M unit := fun s =>
  let '(ok, d) := f (picam2 s) in
  (if ok then Ok tt else Raise (DeviceError op),
   log (Device op ok) (set_picam2 d s)).

(** *** Preview *)

(** The restart sequence. *)
Definition _restart_camera : M unit :=
  emit RestartCamera;;
  with_lock CameraLock (
    try_except (call StopRecording stop_recording) pass;;
    try_except (call Stop stop) pass;;
    call Configure configure;;
    call Start start).

(** [picam2.capture_array("main")]. *)
Definition pull_frame : M Frame := fun s =>
  let '(r, d) := capture_array (picam2 s) in
  match r with
  | Some f => (Ok f, log (Device CaptureArray true) (set_picam2 d s))
  | None => (Raise (DeviceError CaptureArray),
             log (Device CaptureArray false) (set_picam2 d s))
  end.

(** One iteration of the [while True] of [_preview_loop]; [false] is the
    [break]. *)
Definition _preview_iter : M bool :=
  running <- with_lock FrameLock (gets _preview_running);;
  if negb running then ret false
  else
    try_except
      (frame <- with_lock CameraLock pull_frame;;
       with_lock FrameLock (modify (set_preview_frame (Some frame))))
      (fun _ =>
         emit (Sleep (1 # 10));;
         try_except _restart_camera (fun _ => emit (Sleep (1 # 2))));;
    ret true.

(** *** Stills *)

(** [cv2.imwrite(str(path), frame)]. *)
Definition imwrite (path : string) (frame : Frame) : M unit :=
  modify (fun s => log (Imwrite path) (set_disk (<[path := frame]> (disk s)) s)).

(** [capture_still()]; [ts] is [datetime.now().strftime("%Y%m%d_%H%M%S")]. *)
Definition capture_still (ts : string) : M string :=
  base <- gets base_dir;;
  let path := path_join base ("still_" ++ ts ++ ".jpg") in
  slot <- with_lock FrameLock (gets _preview_frame);;
  frame <- match slot with
          | Some f => ret f
          | None => with_lock CameraLock pull_frame
          end;;
  imwrite path frame;;
  ret path.

(** *** Clip recording *)

Definition set_flag (b : bool) : M unit :=
  modify (set_recording b);; emit (SetRecording b).

(** The head of [record_clip]: test-and-set of [_recording] under
    [_record_lock]; [false] is the [return None]. *)
Definition record_clip_enter : M bool :=
  with_lock RecordLock (
    busy <- gets _recording;;
    if busy then ret false else set_flag true;; ret true).

(** The [try] block up to the assignment of [output]. *)
Definition open_sink (path : string) : M string := fun s =>
  let '(ok1, d1) := new_encoder (picam2 s) in
  let s1 := log (NewEncoder ok1) (set_picam2 d1 s) in
  if ok1 then
    let '(ok2, d2) := new_output d1 in
    (if ok2 then Ok path else Raise OutputError,
     log (NewOutput path ok2) (set_picam2 d2 s1))
  else (Raise EncoderError, s1).

(** [time.sleep(secs)] on an [int]: the seconds are converted to a count
    of nanoseconds on 64 bits, and the call raises [OverflowError],
    without sleeping, when they do not fit (from 9223372037 s on). *)
Definition sleep (secs : Z) : M unit :=
  if (secs <? SLEEP_LIMIT)%Z then emit (Sleep (inject_Z secs))
  else raise OverflowError.
Arguments sleep : simpl never.

(** The [try] block after the assignment of [output]. *)
Definition record_to_sink (duration : Z) (path : string) : M (option string) :=
  with_lock CameraLock (call StartRecording start_recording);;
  sleep (Z.max 1 duration);;
  with_lock CameraLock (call StopRecording stop_recording);;
  try_except _restart_camera pass;;
  ret (Some path).

(** [output.close()]. *)
Definition close_sink (path : string) : M unit := fun s =>
  let '(ok, d) := output_close (picam2 s) in
  (if ok then Ok tt else Raise OutputError,
   log (CloseOutput path ok) (set_picam2 d s)).

(** The [finally] block. *)
Definition close_if_open (output : option string) : M unit :=
  match output with
  | Some o => if output_has_close then close_sink o else ret tt
  | None => ret tt
  end.

Definition release_session (output : option string) : M unit :=
  try_except (close_if_open output) pass;;
  with_lock RecordLock (set_flag false).

(** [record_clip] once the session is taken. *)
Definition record_clip_session (duration : Z) (ts : string) : M (option string) :=
  base <- gets base_dir;;
  let path := path_join base ("clip_" ++ ts ++ ".mp4") in
  try_finally_local (open_sink path) (record_to_sink duration) release_session.

(** [record_clip(duration)]; [ts] is the timestamp read in the [try]. *)
Definition record_clip (duration : Z) (ts : string) : M (option string) :=
  acquired <- record_clip_enter;;
  if negb acquired then ret None else record_clip_session duration ts.

(** [threading.Thread(target=self.record_clip, args=(duration,)).start()]. *)
Definition spawn (duration : Z) : M unit :=
  modify (fun s => set_workers (workers s ++ [Ready duration]) s);;
  emit (ThreadStart duration).

Definition start_record_clip_async (duration : Z) : M bool :=
  busy <- with_lock RecordLock (gets _recording);;
  if busy then ret false else spawn duration;; ret true.

(** [disable_motion()]. *)
Definition disable_motion : M unit :=
  modify (set_motion_stop_evt true).

(** *** The process as a whole *)

(** The manager as [__init__] leaves it: preview running, no frame
    published yet, no recording, no worker. *)
Definition idle (d : D) (base : string) : state :=
  {| picam2 := d; base_dir := base; _preview_frame := None;
     _preview_running := true; _recording := false;
     _motion_stop_evt := false; workers := []; disk := ∅; trace := [] |}.

(** What the threads other than the one under study do, one atomic piece
    at a time: an iteration of the preview loop, a request of the HTTP
    layer, the test-and-set of a worker, the rest of its [record_clip]. *)
Inductive action :=
| PreviewStep
| CaptureStill (ts : string)
| RequestClip (duration : Z)
| WorkerEnter (tid : nat)
| WorkerFinish (tid : nat) (ts : string)
| DisableMotion.

Inductive reply :=
| Accepted (r : outcome bool)
| StillPath (r : outcome string)
| Silent.

Definition set_worker (tid : nat) (w : worker) : M unit :=
  modify (fun s => set_workers (<[tid := w]> (workers s)) s).

Definition run_action (a : action) : M reply :=
  match a with
  | PreviewStep => _ <- attempt _preview_iter;; ret Silent
  | CaptureStill ts => r <- attempt (capture_still ts);; ret (StillPath r)
  | RequestClip d => r <- attempt (start_record_clip_async d);; ret (Accepted r)
  | WorkerEnter tid =>
      ws <- gets workers;;
      match ws !! tid with
      | Some (Ready d) =>
          r <- attempt record_clip_enter;;
          set_worker tid
            match r with
            | Ok true => Recording d
            | Ok false => Finished (Ok None)
            | Raise e => Finished (Raise e)
            end;;
          ret Silent
      | _ => ret Silent
      end
  | WorkerFinish tid ts =>
      ws <- gets workers;;
      match ws !! tid with
      | Some (Recording d) =>
          r <- attempt (record_clip_session d ts);;
          set_worker tid (Finished r);;
          ret Silent
      | _ => ret Silent
      end
  | DisableMotion => disable_motion;; ret Silent
  end.

(** A schedule, with the replies its actions got. *)
Fixpoint run_actions (acts : list action) : M (list reply) :=
  match acts with
  | [] => ret []
  | a :: rest =>
      r <- run_action a;;
      rs <- run_actions rest;;
      ret (r :: rs)
  end.

(** *** Motion detection *)

Section Motion.
(** OpenCV: [smooth] is [cvtColor] then [GaussianBlur]; [contour_areas] is
    [absdiff], [threshold], [dilate], [findContours] and [contourArea]. *)
Context {Gray : Type}
  (smooth : Frame -> Gray) (contour_areas : Gray -> Gray -> list Q).

(** The locals of [_motion_loop]. *)
Record motion_locals := {
  prev_gray : option Gray;
  cool_down_until : Q;
}.

Definition motion_start : motion_locals :=
  {| prev_gray := None; cool_down_until := 0 |}.

(** [x > y] on numbers. *)
Definition gt (x y : Q) : bool := negb (Qle_bool x y).

(** [any(cv2.contourArea(c) > 1500 for c in contours)]. *)
Definition motion_detected (prev gray : Gray) : bool :=
  existsb (fun a => gt a AREA_THRESHOLD) (contour_areas prev gray).

(** One pass through the body of the [while]; [now] is the reading of
    [time.time()] in this pass. *)
Definition _motion_iter (now : Q) (loc : motion_locals) : M motion_locals :=
  slot <- with_lock FrameLock (gets _preview_frame);;
  match slot with
  | None => emit (Sleep (1 # 10));; ret loc
  | Some frame =>
      let gray := smooth frame in
      match prev_gray loc with
      | None =>
          emit (Sleep (1 # 10));;
          ret {| prev_gray := Some gray;
                 cool_down_until := cool_down_until loc |}
      | Some prev =>
          until <-
            (if motion_detected prev gray && gt now (cool_down_until loc)
             then
               accepted <- start_record_clip_async MOTION_CLIP_DURATION;;
               emit (MotionTrigger now MOTION_CLIP_DURATION accepted);;
               ret (now + COOLDOWN)%Q
             else ret (cool_down_until loc));;
          emit (Sleep (1 # 10));;
          ret {| prev_gray := Some gray; cool_down_until := until |}
      end
  end.

(** Whether a pass triggers: a frame is in the slot, a previous frame is
    stored, motion is declared and the clock is past the deadline. *)
Definition fires (now : Q) (loc : motion_locals) (slot : option Frame) : bool :=
  match slot, prev_gray loc with
  | Some frame, Some prev =>
      motion_detected prev (smooth frame) && gt now (cool_down_until loc)
  | _, _ => false
  end.

(** What one pass of the loop meets: the steps the other threads took
    since the previous pass, and the clock. *)
Record tick := {
  others : list action;
  now : Q;
}.

(** [_motion_loop] over the passes observed; it leaves when the stop event
    is set. *)
Fixpoint _motion_loop (ticks : list tick) (loc : motion_locals)
  : M motion_locals :=
  match ticks with
  | [] => ret loc
  | t :: rest =>
      run_actions (others t);;
      stopped <- gets _motion_stop_evt;;
      if negb stopped
      then loc' <- _motion_iter (now t) loc;; _motion_loop rest loc'
      else ret loc
  end.

End Motion.

End Manager.

(** [s] once the backend has moved to [d] and [evs] were logged. *)
Definition advance {D Frame} (d : D) (evs : list event) (s : state D Frame)
  : state D Frame :=
  {| picam2 := d; base_dir := base_dir s;
     _preview_frame := _preview_frame s;
     _preview_running := _preview_running s; _recording := _recording s;
     _motion_stop_evt := _motion_stop_evt s; workers := workers s;
     disk := disk s; trace := trace s ++ evs |}.

(** The events a run added to the log. *)
Definition events_since {D Frame} (s s' : state D Frame) : list event :=
  drop (List.length (trace s)) (trace s').

(** The events that running [m] from [s] adds to the log. *)
Definition events_of {D Frame A}
    (m : StateExn (state D Frame) A) (s : state D Frame) : list event :=
  events_since s (m s).2.


(** The triggers of the motion loop, in order: instant, requested
    duration, and whether the request was accepted. *)
Definition motion_triggers (evs : list event) : list (Q * Z * bool) :=
  omap (fun e => match e with
                 | MotionTrigger t d a => Some (t, d, a)
                 | _ => None
                 end) evs.

(** An event of a thread other than the motion loop. *)
Definition not_trigger (e : event) : Prop :=
  match e with MotionTrigger _ _ _ => False | _ => True end.

(** *** What a run leaves unchanged

    A relation between the state before and the state after that every
    run of [m] satisfies; two such relations are used: the log only grows,
    by events that satisfy [P]; and the session (the flag and the workers)
    is left as it was. *)

Section Frames.
Context {D Frame : Type}.
#[local] Abbreviation state := (state D Frame).

Definition maintains {A} (R : relation state) (m : StateExn state A) : Prop :=
  forall s, R s (m s).2.

Definition appends (P : event -> Prop) : relation state :=
  fun s s' => exists evs, trace s' = (trace s ++ evs)%list /\ Forall P evs.

Definition same_session : relation state :=
  fun s s' => _recording s' = _recording s /\ workers s' = workers s.

(** A relation that holds across every step that moves the backend,
    publishes a frame, writes a file, sets the stop event or logs an event
    of the manager. *)
Class Tolerates (R : relation state) := {
  tolerates_preorder :: PreOrder R;
  tolerates_log e s : not_trigger e -> R s (log e s);
  tolerates_picam2 d s : R s (set_picam2 d s);
  tolerates_preview_frame f s : R s (set_preview_frame f s);
  tolerates_disk m s : R s (set_disk m s);
  tolerates_motion_stop_evt b s : R s (set_motion_stop_evt b s);
}.

(** The workers that own the recording session. *)
Definition holding (w : worker) : bool :=
  match w with Recording _ => true | _ => false end.

Definition owners (s : state) : nat :=
  List.length (List.filter holding (workers s)).

(** The flag is set exactly while one worker owns the session. *)
Definition session_inv (s : state) : Prop :=
  owners s = if _recording s then 1%nat else 0%nat.

End Frames.

(** *** Starting the preview, and its loop *)

Section Preview.
Context {D Frame : Type} `{!Picamera2 D Frame}.

#[local] Abbreviation state := (state D Frame).
#[local] Abbreviation M := (StateExn state).
#[local] Open Scope thread_scope.

Definition set_preview_running (b : bool) (s : state) : state :=
  {| picam2 := picam2 s; base_dir := base_dir s;
     _preview_frame := _preview_frame s;
     _preview_running := b; _recording := _recording s;
     _motion_stop_evt := _motion_stop_evt s; workers := workers s;
     disk := disk s; trace := trace s |}.

(** [start_preview()]; the result tells whether the thread of
    [_preview_loop] was started ([false] is the early [return]). *)
Definition start_preview : M bool :=
  first_call <- with_lock FrameLock (
    running <- gets _preview_running;;
    if running then ret false
    else modify (set_preview_running true);; ret true);;
  if negb first_call then ret false
  else with_lock CameraLock (call Start start);; ret true.

(** The first [passes] iterations of the [while True] of [_preview_loop];
    [false] when the loop was left by its [break]. *)
Fixpoint _preview_loop (passes : nat) : M bool :=
  match passes with
  | O => ret true
  | S n => go <- _preview_iter;; if go then _preview_loop n else ret false
  end.

End Preview.

(** The outcomes of the frame pulls of a run, in order. *)
Definition frame_pulls (evs : list event) : list bool :=
  omap (fun e => match e with Device CaptureArray ok => Some ok | _ => None end)
    evs.

(** *** The locks a thread holds

    A log read by one thread: [h] is the lock the thread holds.  A lock is
    taken only by a thread that holds none and given back by the thread
    that holds it; the camera stack is called under [_camera_lock] only,
    [_recording] is written under [_record_lock] only, and whatever takes
    time (a sleep, ffmpeg, a file, a thread start, the entry into
    [_restart_camera]) happens with no lock held.  [None] is a log that
    breaks one of these rules. *)

Definition lock_eqb (a b : lock) : bool :=
  match a, b with
  | FrameLock, FrameLock | CameraLock, CameraLock | RecordLock, RecordLock => true
  | _, _ => false
  end.

Definition lock_step (h : option lock) (e : event) : option (option lock) :=
  match e, h with
  | Acquire l, None => Some (Some l)
  | Release l, Some l' => if lock_eqb l l' then Some None else None
  | Device _ _, Some CameraLock => Some h
  | SetRecording _, Some RecordLock => Some h
  | (Sleep _ | NewEncoder _ | NewOutput _ _ | CloseOutput _ _ | Imwrite _
     | ThreadStart _ | RestartCamera | MotionTrigger _ _ _), None => Some h
  | _, _ => None
  end.

Fixpoint run_locks (h : option lock) (evs : list event) : option (option lock) :=
  match evs with
  | [] => Some h
  | e :: rest =>
      match lock_step h e with
      | Some h' => run_locks h' rest
      | None => None
      end
  end.

Section Monitors.
Context {D Frame : Type}.
#[local] Abbreviation state := (state D Frame).

(** A run that starts and ends with [h] held and keeps to the rules. *)
Definition holds (h : option lock) : relation state :=
  fun s s' =>
    exists evs, trace s' = (trace s ++ evs)%list /\ run_locks h evs = Some h.

(** A run that leaves the field [f] as it was. *)
Definition untouched {X} (f : state -> X) : relation state :=
  fun s s' => f s' = f s.

End Monitors.

(** *** The motion switch *)

Module Switch.
Section Server.
Context {D Frame : Type}.
#[local] Abbreviation state := (state D Frame).

(** The manager with the two fields of the switch: [_motion_thread] is
    [None] before the first thread, then whether the last thread started
    [is_alive()]; [motion_threads] counts the threads started on
    [_motion_loop]. *)
Record server := {
  camera : state;
  _motion_enabled : bool;
  _motion_thread : option bool;
  motion_threads : nat;
}.

(** [enable_motion()]. *)
Definition enable_motion (sv : server) : server :=
  match _motion_thread sv with
  | Some true =>
      {| camera := camera sv; _motion_enabled := true;
         _motion_thread := _motion_thread sv;
         motion_threads := motion_threads sv |}
  | _ =>
      {| camera := set_motion_stop_evt false (camera sv);
         _motion_enabled := true;
         _motion_thread := Some true;
         motion_threads := S (motion_threads sv) |}
  end.

(** [disable_motion()], with the write of [_motion_enabled]. *)
Definition disable_motion (sv : server) : server :=
  {| camera := (disable_motion (camera sv)).2;
     _motion_enabled := false;
     _motion_thread := _motion_thread sv;
     motion_threads := motion_threads sv |}.

(** The thread of [_motion_loop] reads the stop event at the head of its
    [while] and, finding it set, returns: it is no longer alive. *)
Definition motion_thread_exits (sv : server) : server :=
  match _motion_thread sv with
  | Some true =>
      if _motion_stop_evt (camera sv)
      then {| camera := camera sv; _motion_enabled := _motion_enabled sv;
              _motion_thread := Some false;
              motion_threads := motion_threads sv |}
      else sv
  | _ => sv
  end.

End Server.
Arguments server : clear implicits.
End Switch.

(** *** The media index *)

Definition MEDIA_SUFFIXES : list string :=
  [".jpg"; ".jpeg"; ".png"; ".gif"; ".mp4"; ".h264"].

(** The first loop of [media_index]: the names that are listed;
    [listing] is [os.listdir(camera.base_dir)]. *)
Definition media_items (listing : list string) : list string :=
  List.filter
    (fun f => existsb (fun x => Py.endswith x (Py.lower f)) MEDIA_SUFFIXES)
    (Py.sorted listing).

Definition DQUOTE : ascii := "034"%char.

(** One entry of the page: the name [f] as a link to [/media/<f>]. *)
Definition media_link (f : string) : string :=
  "<li><a href=" ++ String DQUOTE ("/media/" ++ f ++ String DQUOTE (">" ++ f
  ++ "</a></li>")).

(** [media_index()]: the page is the join of the header, one link for
    each listed name, and the closing tag. *)
Definition media_index (base : string) (listing : list string) : string :=
  Py.join ""
    ([("<h1>Media files</h1><p>Folder: <code>" ++ base
       ++ "</code></p><ul>")%string]
     ++ map media_link (media_items listing)
     ++ ["</ul>"])%list.

(** *** A scripted backend

    A backend that answers each call with the next entry of a script
    ([true]: the call succeeds; past the end of the script every call
    succeeds) and whose frames are numbered in the order they are
    pulled. *)

Record sim := {
  script : list bool;
  next_frame : nat;
}.

Definition answer (d : sim) : bool * sim :=
  match script d with
  | [] => (true, d)
  | b :: rest => (b, {| script := rest; next_frame := next_frame d |})
  end.

Definition answer_frame (d : sim) : option nat * sim :=
  let '(ok, d') := answer d in
  if ok
  then (Some (next_frame d'),
        {| script := script d'; next_frame := S (next_frame d') |})
  else (None, d').

Definition scripted (has_close : bool) : Picamera2 sim nat :=
  {| configure := answer; start := answer; stop := answer;
     start_recording := answer; stop_recording := answer;
     capture_array := answer_frame;
     new_encoder := answer; new_output := answer;
     output_has_close := has_close; output_close := answer |}.

Definition healthy : sim := {| script := []; next_frame := 0 |}.
Definition failing (answers : list bool) : sim :=
  {| script := answers; next_frame := 0 |}.

#[export] Instance simulated : Picamera2 sim nat := scripted true.

(** A manager on the scripted backend, fresh and after the preview loop
    published its first frame. *)
Definition fresh (d : sim) : state sim nat :=
  idle d "/srv/media".

Definition previewing : state sim nat :=
  (run_action PreviewStep (fresh healthy)).2.

(** A detector for the scripted frames: the frame itself as its smoothed
    image, and one region of 2000 pixels between frames that differ. *)
Definition sim_smooth (f : nat) : nat := f.
Definition sim_areas (prev gray : nat) : list Q :=
  if (prev =? gray)%nat then [] else [2000%Q].

(** A manager whose worker owns the recording session, one whose motion
    detection was switched off, and a server whose motion thread runs. *)
Definition mid_recording : state sim nat :=
  (run_actions [RequestClip 30; WorkerEnter 0] (fresh healthy)).2.

Definition motion_off : state sim nat :=
  (run_action DisableMotion previewing).2.

Definition watching : Switch.server sim nat :=
  Switch.enable_motion
    {| Switch.camera := previewing; Switch._motion_enabled := false;
       Switch._motion_thread := None; Switch.motion_threads := 0 |}.

End Camera.

(** * Properties *)

(** ** The fleet dashboard *)

Module DashboardSpec.
Import Dashboard.

Lemma drop_chars_length k s :
  String.length (Py.drop_chars k s) = (String.length s - k)%nat.
Proof.
  revert s; induction k as [|k IH]; intros [|c s]; simpl; auto with arith.
Qed.

Lemma drop_chars_suffix k s :
  exists pre, s = pre ++ Py.drop_chars k s.
Proof.
  revert s; induction k as [|k IH]; intros s.
  - exists ""; reflexivity.
  - destruct s as [|c s]; [exists ""; reflexivity|].
    destruct (IH s) as [pre Hpre].
    exists (String c pre); rewrite Hpre at 1; reflexivity.
Qed.

Lemma last_chars_length n s :
  String.length (Py.last_chars n s) = Nat.min n (String.length s).
Proof. unfold Py.last_chars; rewrite drop_chars_length; lia. Qed.

Lemma last_chars_suffix n s :
  exists pre, s = pre ++ Py.last_chars n s.
Proof. apply drop_chars_suffix. Qed.

Lemma last_chars_short n s :
  (String.length s <= n)%nat -> Py.last_chars n s = s.
Proof.
  intros H; unfold Py.last_chars.
  replace (String.length s - n)%nat with 0%nat by lia; reflexivity.
Qed.

Lemma round_half_even_near (q : Q) :
  (q - (1 # 2) <= inject_Z (Py.round_half_even q) <= q + (1 # 2))%Q.
Proof.
  unfold Py.round_half_even.
  pose proof (Qfloor_le q) as Hlo.
  pose proof (Qlt_floor q) as Hhi.
  rewrite inject_Z_plus in Hhi.
  change (inject_Z 1) with 1%Q in Hhi.
  destruct (Qcompare_spec (q - inject_Z (Qfloor q)) (1 # 2)) as [He|Hl|Hg].
  - destruct (Z.even (Qfloor q)).
    + lra.
    + rewrite inject_Z_plus; change (inject_Z 1) with 1%Q; lra.
  - lra.
  - rewrite inject_Z_plus; change (inject_Z 1) with 1%Q; lra.
Qed.

Lemma round2_near (q : Q) :
  (q - (1 # 200) <= Py.round2 q <= q + (1 # 200))%Q.
Proof.
  unfold Py.round2.
  pose proof (round_half_even_near (q * 100)) as H.
  assert (E : (Py.round_half_even (q * 100) # 100
               == inject_Z (Py.round_half_even (q * 100)) * (1 # 100))%Q).
  { unfold Qeq, Qmult, inject_Z; simpl; lia. }
  rewrite E; lra.
Qed.

(** C9: when the command exceeds its timeout, [_run] returns a result
    (it does not raise) with [ok = False], no return code, the captured
    output (the placeholder [Timed out] for an empty stderr), the elapsed
    time rounded to the hundredth of a second, and the quoted command
    line. *)
Theorem run_timeout_structured_failure
    (run : list string -> Z -> proc_outcome) (started finished : Q)
    (argv : list string) (timeout : Z) (out err : option string) :
  run argv timeout = TimeoutExpired out err ->
  exists r,
    _run run started finished argv timeout = inr r
    /\ ok r = false
    /\ returncode r = None
    /\ stdout r = Py.last_chars OUTPUT_CAP (Py.or_str out "")
    /\ stderr r = Py.last_chars OUTPUT_CAP (Py.or_str err "Timed out")
    /\ (finished - started - (1 # 200) <= seconds r
        <= finished - started + (1 # 200))%Q
    /\ cmd r = Py.join " " (map shlex_quote argv).
Proof.
  intros Hrun; unfold _run; rewrite Hrun.
  eexists; split; [reflexivity|]; simpl.
  repeat split; try reflexivity; apply round2_near.
Qed.

Lemma run_timeout_structured_failure_witness :
  exists r,
    _run (stalled "Cloning into") 10 (13001 # 100)
      ["ssh"; "-o"; "BatchMode=yes"; "pi@cam1"; "sudo systemctl restart cam"]
      DEFAULT_TIMEOUT = inr r
    /\ ok r = false
    /\ returncode r = None
    /\ stdout r = Py.last_chars OUTPUT_CAP (Py.or_str (Some "Cloning into") "")
    /\ stderr r = Py.last_chars OUTPUT_CAP (Py.or_str None "Timed out")
    /\ ((13001 # 100) - 10 - (1 # 200) <= seconds r
        <= (13001 # 100) - 10 + (1 # 200))%Q
    /\ cmd r = Py.join " " (map shlex_quote
         ["ssh"; "-o"; "BatchMode=yes"; "pi@cam1"; "sudo systemctl restart cam"]).
Proof.
  apply (run_timeout_structured_failure (stalled "Cloning into")).
  reflexivity.
Defined.

(** C10: whether the command completes or times out, the [stdout] and
    [stderr] of the result are the last 12000 characters of the captured
    text (all of it when it is shorter), so neither is longer than 12000
    characters. *)
Theorem run_output_capped
    (run : list string -> Z -> proc_outcome) (started finished : Q)
    (argv : list string) (timeout : Z) (r : run_result) :
  _run run started finished argv timeout = inr r ->
  let captured :=
    match run argv timeout with
    | Completed _ out err => (out, err)
    | TimeoutExpired out err => (Py.or_str out "", Py.or_str err "Timed out")
    | OtherError _ => ("", "")
    end in
  ((Z.of_nat (String.length (stdout r)) <= 12000)%Z
   /\ Z.of_nat (String.length (stdout r))
      = Z.min 12000 (Z.of_nat (String.length captured.1))
   /\ exists pre, captured.1 = pre ++ stdout r)
  /\
  ((Z.of_nat (String.length (stderr r)) <= 12000)%Z
   /\ Z.of_nat (String.length (stderr r))
      = Z.min 12000 (Z.of_nat (String.length captured.2))
   /\ exists pre, captured.2 = pre ++ stderr r).
Proof.
  assert (cap : forall s,
    (Z.of_nat (String.length (Py.last_chars OUTPUT_CAP s)) <= 12000)%Z
    /\ Z.of_nat (String.length (Py.last_chars OUTPUT_CAP s))
       = Z.min 12000 (Z.of_nat (String.length s))
    /\ exists pre, s = pre ++ Py.last_chars OUTPUT_CAP s).
  { intros s; rewrite last_chars_length; unfold OUTPUT_CAP.
    repeat split; try lia; apply last_chars_suffix. }
  unfold _run; intros H.
  destruct (run argv timeout) as [rc o e|o e|msg]; [| |discriminate];
    injection H as <-; simpl; split; apply cap.
Qed.

Lemma run_output_capped_witness :
  exists r,
    _run (chatty (Z.to_nat 12345)) 0 1 ["bash"; "update_all.sh"] 600 = inr r
    /\ (Z.of_nat (String.length (stdout r)) <= 12000)%Z
    /\ (Z.of_nat (String.length (stderr r)) <= 12000)%Z.
Proof.
  eexists; split; [reflexivity|].
  pose proof (run_output_capped (chatty (Z.to_nat 12345)) 0 1
                ["bash"; "update_all.sh"] 600 _ eq_refl) as H.
  split; [exact (proj1 (proj1 H)) | exact (proj1 (proj2 H))].
Defined.

End DashboardSpec.

(** ** The camera list and the routes of the dashboard *)

Module HubSpec.
Import Py Dashboard.
#[local] Open Scope string_scope.

Lemma append_cons c a b : (String c a ++ b)%string = String c (a ++ b).
Proof. reflexivity. Qed.

Lemma append_nil b : ("" ++ b)%string = b.
Proof. reflexivity. Qed.

(** *** Lines *)

Lemma splitlines_nonempty c s : splitlines (String c s) <> [].
Proof.
  cbn [splitlines]; destruct (is_linebreak c); [discriminate|].
  destruct (splitlines s); discriminate.
Qed.

Lemma splitlines_app_lf a b :
  splitlines (a ++ String LF b) = (splitlines (a ++ String LF "")%string ++ splitlines b)%list.
Proof.
  remember (String.length a) as n eqn:Hn.
  revert a Hn; induction n as [n IH] using lt_wf_ind; intros a Hn.
  destruct a as [|c a]; [destruct b; reflexivity|].
  rewrite !append_cons; cbn [splitlines].
  destruct (is_linebreak c) eqn:Hc.
  - destruct a as [|c' a].
    + rewrite !append_nil.
      replace (Ascii.eqb LF LF) with true by reflexivity.
      destruct (Ascii.eqb c CR); simpl; destruct b; reflexivity.
    + rewrite !append_cons.
      destruct (Ascii.eqb c CR && Ascii.eqb c' LF).
      * rewrite (IH (String.length a)) by (simpl in Hn; lia || reflexivity);
          reflexivity.
      * rewrite <- !append_cons.
        rewrite (IH (String.length (String c' a)))
          by (simpl in *; lia || reflexivity); reflexivity.
  - rewrite (IH (String.length a)) by (simpl in Hn; lia || reflexivity).
    destruct (splitlines (a ++ String LF "")) as [|l ls] eqn:E; [|reflexivity].
    destruct a; discriminate E || (exfalso; revert E; apply splitlines_nonempty).
Qed.

Lemma splitlines_plain (line : string) :
  (forall c, contains c line = true -> is_linebreak c = false) ->
  splitlines (line ++ String LF "") = [line].
Proof.
  induction line as [|c line IH]; intros H; [reflexivity|].
  rewrite append_cons; cbn [splitlines].
  rewrite (H c) by (simpl; rewrite Ascii.eqb_refl; reflexivity).
  rewrite IH; [reflexivity|].
  intros c' Hc'; apply H; simpl; rewrite Hc'; apply orb_true_r.
Qed.

Lemma load_cameras_app_lf (a b : string) :
  _load_cameras (Some (a ++ String LF b))
  = (_load_cameras (Some (a ++ String LF "")%string) ++ _load_cameras (Some b))%list.
Proof.
  unfold _load_cameras; rewrite splitlines_app_lf, flat_map_app; reflexivity.
Qed.

(** A line feed at the end of the text adds at most an empty line. *)
Lemma splitlines_trailing_lf a :
  exists extra,
    splitlines (a ++ String LF "") = (splitlines a ++ extra)%list
    /\ (extra = [] \/ extra = [""]).
Proof.
  remember (String.length a) as n eqn:Hn.
  revert a Hn; induction n as [n IH] using lt_wf_ind; intros a Hn.
  destruct a as [|c a]; [exists [""]; auto|].
  rewrite append_cons; cbn [splitlines].
  destruct (is_linebreak c) eqn:Hc.
  - destruct a as [|c' a].
    + rewrite append_nil.
      replace (Ascii.eqb LF LF) with true by reflexivity.
      destruct (Ascii.eqb c CR); simpl; [exists [] | exists [""]]; auto.
    + rewrite append_cons.
      destruct (Ascii.eqb c CR && Ascii.eqb c' LF).
      * destruct (IH (String.length a) ltac:(simpl in Hn; lia) a eq_refl)
          as (extra & -> & Hextra).
        exists extra; auto.
      * rewrite <- append_cons.
        destruct (IH (String.length (String c' a)) ltac:(simpl in *; lia)
                    (String c' a) eq_refl) as (extra & -> & Hextra).
        exists extra; auto.
  - destruct (IH (String.length a) ltac:(simpl in Hn; lia) a eq_refl)
      as (extra & -> & Hextra).
    destruct a as [|c' a]; [exists []; destruct Hextra as [-> | ->]; auto|].
    destruct (splitlines (String c' a)) as [|l ls] eqn:E;
      [exfalso; revert E; apply splitlines_nonempty|].
    exists extra; auto.
Qed.

Lemma load_trailing_lf (a : string) :
  _load_cameras (Some (a ++ String LF "")) = _load_cameras (Some a).
Proof.
  unfold _load_cameras.
  destruct (splitlines_trailing_lf a) as (extra & -> & [-> | ->]);
    rewrite flat_map_app; simpl; rewrite app_nil_r; reflexivity.
Qed.

(** X12: the camera list is read line by line: the cameras of two texts
    joined by a line feed are the cameras of the first followed by the
    cameras of the second (so a line feed at the end of the file adds
    nothing). *)
Theorem load_cameras_concat (a b : string) :
  _load_cameras (Some (a ++ String LF b))
  = (_load_cameras (Some a) ++ _load_cameras (Some b))%list.
Proof. rewrite load_cameras_app_lf, load_trailing_lf; reflexivity. Qed.

Lemma load_blank_line (line : string) :
  (forall c, contains c line = true -> is_linebreak c = false) ->
  strip line = "" \/ startswith "#" (strip line) = true ->
  _load_cameras (Some (line ++ String LF "")) = [].
Proof.
  intros Hplain Hskip; unfold _load_cameras.
  rewrite splitlines_plain by exact Hplain; simpl.
  unfold camera_of_line.
  destruct Hskip as [-> | ->]; [reflexivity|].
  rewrite orb_true_r; reflexivity.
Qed.

(** X13: a line that is blank, or whose first character after the
    leading white space is [#], holds no camera: adding it at the top of
    the file or between two lines leaves the list as it was. *)
Theorem comment_lines_are_skipped (a line b : string) :
  (forall c, contains c line = true -> is_linebreak c = false) ->
  strip line = "" \/ startswith "#" (strip line) = true ->
  _load_cameras (Some (line ++ String LF b)) = _load_cameras (Some b)
  /\ _load_cameras (Some (a ++ String LF (line ++ String LF b)))
     = _load_cameras (Some (a ++ String LF b)).
Proof.
  intros Hplain Hskip.
  assert (Htop : forall b',
    _load_cameras (Some (line ++ String LF b')) = _load_cameras (Some b')).
  { intros b'; rewrite load_cameras_app_lf, load_blank_line by assumption.
    reflexivity. }
  split; [apply Htop|].
  rewrite (load_cameras_app_lf a), Htop, <- load_cameras_app_lf; reflexivity.
Qed.

(** *** Fields *)

Lemma lstrip_cases s :
  lstrip s = "" \/ exists c t, lstrip s = String c t /\ is_space c = false.
Proof.
  induction s as [|c s IH]; [left; reflexivity|]; cbn [lstrip].
  destruct (is_space c) eqn:Hc; [exact IH | right; eauto].
Qed.

Lemma rstrip_idem s : rstrip (rstrip s) = rstrip s.
Proof.
  induction s as [|c s IH]; [reflexivity|]; cbn [rstrip].
  destruct (rstrip s) as [|x r] eqn:E.
  - destruct (is_space c) eqn:Hc; [reflexivity|]; cbn [rstrip]; rewrite Hc.
    reflexivity.
  - cbn [rstrip] in *; rewrite IH; reflexivity.
Qed.

Lemma rstrip_keeps_head c t :
  is_space c = false -> exists r, rstrip (String c t) = String c r.
Proof.
  intros Hc; cbn [rstrip]; destruct (rstrip t); rewrite ?Hc; eauto.
Qed.

Lemma strip_idem s : strip (strip s) = strip s.
Proof.
  unfold strip.
  destruct (lstrip_cases s) as [-> | (c & t & -> & Hc)]; [reflexivity|].
  destruct (rstrip_keeps_head c t Hc) as [r Hr].
  rewrite Hr; cbn [lstrip]; rewrite Hc, <- Hr; apply rstrip_idem.
Qed.

Lemma contains_lstrip c s : contains c (lstrip s) = true -> contains c s = true.
Proof.
  induction s as [|x s IH]; [auto|]; cbn [lstrip].
  destruct (is_space x); [|auto].
  intros H; simpl; rewrite (IH H); apply orb_true_r.
Qed.

Lemma contains_rstrip c s : contains c (rstrip s) = true -> contains c s = true.
Proof.
  induction s as [|x s IH]; [auto|]; cbn [rstrip contains].
  destruct (rstrip s) as [|y r].
  - destruct (is_space x); cbn [contains]; [discriminate|].
    rewrite orb_false_r; intros ->; reflexivity.
  - cbn [contains] in *; intros H.
    apply orb_true_iff in H as [->|H]; [reflexivity|].
    rewrite (IH H); apply orb_true_r.
Qed.

Lemma strip_without c s : contains c s = false -> contains c (strip s) = false.
Proof.
  intros H; destruct (contains c (strip s)) eqn:E; [|reflexivity].
  apply contains_rstrip, contains_lstrip in E; congruence.
Qed.

Lemma split_cons sep s : exists p ps, split sep s = p :: ps.
Proof.
  destruct s as [|c s]; cbn [split]; [eauto|].
  destruct (Ascii.eqb c sep); [eauto|].
  destruct (split sep s); eauto.
Qed.

(** [(a + sep + b).split(sep) == a.split(sep) + b.split(sep)]. *)
Lemma split_app sep a b :
  split sep (a ++ String sep b) = (split sep a ++ split sep b)%list.
Proof.
  induction a as [|c a IH].
  - rewrite append_nil; cbn [split]; rewrite Ascii.eqb_refl; reflexivity.
  - rewrite append_cons; cbn [split]; rewrite IH.
    destruct (Ascii.eqb c sep); [reflexivity|].
    destruct (split_cons sep a) as (p & ps & ->); reflexivity.
Qed.

Lemma split_whole sep s : contains sep s = false -> split sep s = [s].
Proof.
  induction s as [|c s IH]; [reflexivity|]; cbn [contains split].
  intros H; apply orb_false_iff in H as [-> H]; rewrite (IH H); reflexivity.
Qed.

Lemma split_pieces sep s :
  Forall (fun p => contains sep p = false) (split sep s).
Proof.
  induction s as [|c s IH]; cbn [split]; [repeat constructor|].
  destruct (Ascii.eqb c sep) eqn:Hc; [constructor; auto|].
  destruct (split sep s) as [|p ps]; [repeat constructor; simpl; rewrite Hc; auto|].
  inversion IH as [|? ? Hp Hps]; subst.
  constructor; [simpl; rewrite Hc, Hp; reflexivity | exact Hps].
Qed.

(** The characters of a piece are characters of the string. *)
Lemma split_pieces_within sep c s :
  Forall (fun p => contains c p = true -> contains c s = true) (split sep s).
Proof.
  induction s as [|x s IH]; cbn [split]; [repeat constructor; auto|].
  assert (IH' : Forall (fun p => contains c p = true ->
                                 contains c (String x s) = true) (split sep s)).
  { eapply Forall_impl; [exact IH|]; cbn [contains].
    intros p Hp H; rewrite (Hp H); apply orb_true_r. }
  destruct (Ascii.eqb x sep); [constructor; [discriminate|exact IH']|].
  destruct (split sep s) as [|p ps]; cbn [contains].
  - repeat constructor; cbn [contains]; rewrite orb_false_r.
    intros ->; reflexivity.
  - inversion IH' as [|? ? Hp Hps]; subst; constructor; [|exact Hps].
    cbn [contains] in *; intros H.
    apply orb_true_iff in H as [->|H]; [reflexivity | exact (Hp H)].
Qed.

Lemma last_in_split sep s : In (List.last (split sep s) "") (split sep s).
Proof.
  destruct (split_cons sep s) as (p & ps & ->).
  destruct (exists_last (l := p :: ps) ltac:(discriminate)) as (l & x & ->).
  rewrite List.last_last; apply in_or_app; right; left; reflexivity.
Qed.

(** X14: every field of a loaded camera is trimmed and free of commas:
    [ssh] has no white space at either end, neither [name] nor [ssh]
    holds a comma, and a [preview_base] that is present is not empty (an
    empty third field is read as absent). *)
Theorem loaded_fields_are_trimmed (file : option string) (cam : Camera) :
  In cam (_load_cameras file) ->
  (strip (ssh cam) = ssh cam /\ contains "," (ssh cam) = false)
  /\ contains "," (name cam) = false
  /\ match preview_base cam with
     | Some p => p <> "" /\ strip p = p /\ contains "," p = false
     | None => True
     end.
Proof.
  destruct file as [text|]; [|intros []]; unfold _load_cameras.
  intros Hin; apply in_flat_map in Hin as (raw & _ & Hin).
  unfold camera_of_line in Hin.
  destruct (_ || _); [destruct Hin|].
  pose proof (split_pieces "," (strip raw)) as Hpieces.
  destruct (split "," (strip raw)) as [|p1 [|p2 rest]]; cbn [map] in Hin;
    try (destruct Hin as [<-|[]]; cbn [name ssh preview_base]).
  - destruct Hin.
  - inversion Hpieces as [|? ? H1 _]; subst.
    pose proof (strip_without _ _ H1) as Hs.
    repeat split; auto using strip_idem.
    destruct (contains "," (List.last (split "@" (strip p1)) "")) eqn:E; auto.
    pose proof (split_pieces_within "@" "," (strip p1)) as Hw.
    rewrite Forall_forall in Hw.
    rewrite (Hw _ (proj2 (list_elem_of_In _ _) (last_in_split "@" (strip p1))) E) in Hs.
    discriminate.
  - inversion Hpieces as [|? ? H1 H']; subst.
    inversion H' as [|? ? H2 H'']; subst.
    repeat split; auto using strip_idem, strip_without.
    destruct rest as [|p3 rest]; cbn [map]; [exact I|].
    destruct (String.eqb_spec (strip p3) ""); [exact I|].
    inversion H'' as [|? ? H3 _]; subst.
    repeat split; auto using strip_idem, strip_without.
Qed.

(** X15: a line with one field (no comma) gives one camera without
    preview whose [ssh] is the trimmed line and whose [name] holds no
    [@]: the whole line when it has no [@], the text after its last [@]
    otherwise. *)
Theorem bare_host_line (raw : string) :
  let line := strip raw in
  line <> "" -> startswith "#" line = false -> contains "," line = false ->
  exists nm,
    camera_of_line raw = [{| name := nm; ssh := line; preview_base := None |}]
    /\ contains "@" nm = false
    /\ (contains "@" line = false -> nm = line)
    /\ (forall user host,
          line = user ++ String "@" host -> contains "@" host = false ->
          nm = host).
Proof.
  intros line Hne Hcomment Hcomma; unfold camera_of_line; fold line.
  destruct (String.eqb_spec line ""); [contradiction|].
  rewrite Hcomment; cbn [orb].
  rewrite (split_whole "," line Hcomma); cbn [map].
  assert (Hfix : strip line = line) by apply strip_idem.
  rewrite Hfix.
  exists (List.last (split "@" line) ""); split; [reflexivity|].
  split; [|split].
  - pose proof (split_pieces "@" line) as Hp; rewrite Forall_forall in Hp.
    apply Hp, list_elem_of_In, last_in_split.
  - intros H; rewrite (split_whole "@" line H); reflexivity.
  - intros user host -> Hhost.
    rewrite split_app, (split_whole "@" host Hhost).
    apply List.last_last.
Qed.


(** *** The restart route *)

Section Routes.
Variables (SERVICE_NAME SSH_IDENTITY : string).
Variable run : list string -> Z -> proc_outcome.
Variables (started finished : Q) (now : string).

#[local] Abbreviation restart :=
  (restart SERVICE_NAME SSH_IDENTITY run started finished now).

(** X16: asked to restart a name that no configured camera bears, the
    route runs no command; it does not raise, and the state file records
    the action [restart] with the message [Unknown camera: <name>]. *)
Theorem restart_unknown_camera_runs_nothing (nm : string) (h : hub) :
  Forall (fun c => name c <> nm) (_load_cameras (cameras_txt h)) ->
  let '(err, h') := restart nm h in
  err = None
  /\ launched h' = launched h
  /\ cameras_txt h' = cameras_txt h
  /\ _read_state h'
     = Some {| action := "restart";
               result := Refused ("Unknown camera: " ++ nm); ts := now |}.
Proof.
  intros Hnone; unfold Dashboard.restart.
  destruct (List.find _ _) as [cam|] eqn:E; [|repeat split].
  apply find_some in E as [Hin Heq].
  rewrite Forall_forall in Hnone.
  apply String.eqb_eq in Heq.
  destruct (Hnone cam (proj2 (list_elem_of_In _ _) Hin) Heq).
Qed.

(** X17: asked to restart a configured name, the route runs exactly one
    command, with a limit of 120 s: [ssh -o BatchMode=yes] (with
    [-i <key>] when a key is set) to the [ssh] target of the first camera
    of that name, the remote command being one argument.  When the
    command completes, or times out with nothing captured, the result of
    [_run] is recorded under the action [restart:<name>].  When it times
    out with output captured, the result holds [bytes]: [json.dumps]
    raises [TypeError], the route raises and the state file keeps what
    it had; so it does when [subprocess.run] raises anything but its
    timeout. *)
Theorem restart_reaches_first_match (nm : string) (h : hub)
    (before after : list Camera) (cam : Camera) :
  _load_cameras (cameras_txt h) = (before ++ cam :: after)%list ->
  Forall (fun c => name c <> nm) before ->
  name cam = nm ->
  let argv :=
    (["ssh"; "-o"; "BatchMode=yes"]
     ++ (if String.eqb SSH_IDENTITY "" then [] else ["-i"; SSH_IDENTITY])
     ++ [ssh cam;
         ("sudo systemctl restart " ++ SERVICE_NAME
          ++ " && systemctl --no-pager --full status " ++ SERVICE_NAME
          ++ " | head -n 20")%string])%list in
  let '(err, h') := restart nm h in
  let recorded :=
    err = None
    /\ exists res,
        _run run started finished argv 120 = inr res
        /\ _read_state h'
           = Some {| action := "restart:" ++ nm; result := Ran res false;
                     ts := now |} in
  let raised msg := err = Some msg /\ last_run_json h' = last_run_json h in
  launched h' = (launched h ++ [(argv, 120%Z)])%list
  /\ cameras_txt h' = cameras_txt h
  /\ match run argv 120 with
     | Completed _ _ _ => recorded
     | TimeoutExpired (None | Some EmptyString) (None | Some EmptyString) =>
         recorded
     | TimeoutExpired _ _ =>
         raised "Object of type bytes is not JSON serializable"
     | OtherError msg => raised msg
     end.
Proof.
  intros Hcams Hbefore Hname argv; unfold Dashboard.restart.
  assert (Hfind : List.find (fun c => String.eqb (name c) nm)
                    (_load_cameras (cameras_txt h)) = Some cam).
  { rewrite Hcams; clear Hcams.
    induction Hbefore as [|c before Hc _ IH]; simpl.
    - rewrite (proj2 (String.eqb_eq _ _) Hname); reflexivity.
    - destruct (String.eqb_spec (name c) nm); [contradiction | exact IH]. }
  rewrite Hfind.
  change (_ssh_cmd SSH_IDENTITY (ssh cam)
            (restart_command SERVICE_NAME)) with argv.
  unfold _run, holds_bytes.
  destruct (run argv 120) as [rc out err|[[|c out]|] [[|c' err]|]|msg]; simpl;
    repeat split; eauto.
Qed.

(** X18: [update_all] runs [bash <script>] once, with a limit of 600 s.
    When the script exceeds it having printed nothing, the route does
    not raise and the state file records the action [update_all] with a
    failed result that has no return code and [Timed out] as its stderr.
    When it exceeds it having printed something, the result holds
    [bytes]: [json.dumps] raises [TypeError], the route raises and the
    state file keeps what it had. *)
Theorem update_all_timeout_recorded_only_when_silent
    (script : string) (h : hub) (out err : option string) :
  run ["bash"; script] 600 = TimeoutExpired out err ->
  let '(raised, h') :=
    update_all run started finished now script h in
  launched h' = (launched h ++ [(["bash"; script], 600%Z)])%list
  /\ match out, err with
     | (None | Some EmptyString), (None | Some EmptyString) =>
         raised = None
         /\ exists res,
             _read_state h'
             = Some {| action := "update_all"; result := Ran res false;
                       ts := now |}
             /\ ok res = false
             /\ returncode res = None
             /\ stdout res = ""
             /\ stderr res = "Timed out"
     | _, _ =>
         raised = Some "Object of type bytes is not JSON serializable"
         /\ last_run_json h' = last_run_json h
     end.
Proof.
  intros Hrun; unfold update_all, _run, holds_bytes; rewrite Hrun.
  destruct out as [[|c out]|], err as [[|c' err]|]; simpl;
    repeat split; eexists; repeat split.
Qed.

End Routes.

Lemma comment_lines_are_skipped_witness :
  _load_cameras (Some ("  # spare" ++ String LF "pi@cam2"))
  = _load_cameras (Some "pi@cam2")
  /\ _load_cameras
       (Some ("pi@cam1" ++ String LF ("  # spare" ++ String LF "pi@cam2")))
     = _load_cameras (Some ("pi@cam1" ++ String LF "pi@cam2")).
Proof.
  apply (comment_lines_are_skipped "pi@cam1" "  # spare" "pi@cam2").
  - intros [[] [] [] [] [] [] [] []]; vm_compute; intros H;
      first [reflexivity | discriminate H].
  - right; reflexivity.
Defined.

Lemma loaded_fields_are_trimmed_witness :
  (strip (ssh garden) = ssh garden /\ contains "," (ssh garden) = false)
  /\ contains "," (name garden) = false
  /\ match preview_base garden with
     | Some p => p <> "" /\ strip p = p /\ contains "," p = false
     | None => True
     end.
Proof.
  apply (loaded_fields_are_trimmed (Some two_cameras) garden).
  vm_compute; left; reflexivity.
Defined.

Lemma bare_host_line_witness :
  exists nm,
    camera_of_line "  pi@cam2 "
    = [{| name := nm; ssh := strip "  pi@cam2 "; preview_base := None |}]
    /\ contains "@" nm = false
    /\ (contains "@" (strip "  pi@cam2 ") = false -> nm = strip "  pi@cam2 ")
    /\ (forall user host,
          strip "  pi@cam2 " = user ++ String "@" host ->
          contains "@" host = false -> nm = host).
Proof.
  apply (bare_host_line "  pi@cam2 "); [discriminate | reflexivity..].
Defined.

Lemma restart_unknown_camera_runs_nothing_witness :
  let '(raised, h') :=
    restart "rpi-cam-server" "" (stalled "") 0 1 "2024-01-01" "cam3"
      sample_hub in
  raised = None
  /\ launched h' = launched sample_hub
  /\ cameras_txt h' = cameras_txt sample_hub
  /\ _read_state h'
     = Some {| action := "restart";
               result := Refused ("Unknown camera: " ++ "cam3");
               ts := "2024-01-01" |}.
Proof.
  apply (restart_unknown_camera_runs_nothing "rpi-cam-server" "" (stalled "")
           0 1 "2024-01-01" "cam3" sample_hub).
  vm_compute; repeat constructor; discriminate.
Defined.

Lemma restart_reaches_first_match_witness :
  let argv :=
    ["ssh"; "-o"; "BatchMode=yes"; "pi@cam2";
     "sudo systemctl restart rpi-cam-server && systemctl --no-pager --full status rpi-cam-server | head -n 20"] in
  let '(raised, h') :=
    restart "rpi-cam-server" "" (chatty 3) 0 1 "2024-01-01" "cam2"
      sample_hub in
  launched h' = [(argv, 120%Z)]
  /\ cameras_txt h' = cameras_txt sample_hub
  /\ raised = None
  /\ exists res,
      _run (chatty 3) 0 1 argv 120 = inr res
      /\ _read_state h'
         = Some {| action := "restart:cam2"; result := Ran res false;
                   ts := "2024-01-01" |}.
Proof.
  exact (restart_reaches_first_match "rpi-cam-server" "" (chatty 3)
           0 1 "2024-01-01" "cam2" sample_hub [garden] [] cam2
           eq_refl ltac:(repeat constructor; discriminate) eq_refl).
Defined.

(** X17 and X18 at a command that times out after it printed: the
    routes raise and the state file is left as it was. *)
Example timeout_with_output_is_not_recorded :
  restart "rpi-cam-server" "" (stalled "Connecting") 0 120 "2024-01-01"
    "cam2" sample_hub
  = (Some "Object of type bytes is not JSON serializable",
     launch
       ["ssh"; "-o"; "BatchMode=yes"; "pi@cam2";
        restart_command "rpi-cam-server"] 120 sample_hub)
  /\ update_all (stalled "Fetching") 0 600 "2024-01-01"
       "/srv/hub/update_all.sh" sample_hub
     = (Some "Object of type bytes is not JSON serializable",
        launch ["bash"; "/srv/hub/update_all.sh"] 600 sample_hub).
Proof. split; reflexivity. Qed.

Lemma update_all_timeout_recorded_only_when_silent_witness :
  let '(raised, h') :=
    update_all (stalled "") 0 600 "2024-01-01" "/srv/hub/update_all.sh"
      sample_hub in
  launched h' = [(["bash"; "/srv/hub/update_all.sh"], 600%Z)]
  /\ raised = None
  /\ exists res,
      _read_state h'
      = Some {| action := "update_all"; result := Ran res false;
                ts := "2024-01-01" |}
      /\ ok res = false
      /\ returncode res = None
      /\ stdout res = ""
      /\ stderr res = "Timed out".
Proof.
  exact (update_all_timeout_recorded_only_when_silent (stalled "") 0 600
           "2024-01-01" "/srv/hub/update_all.sh" sample_hub
           (Some "") None eq_refl).
Defined.

End HubSpec.

(** ** The camera coordinator *)

Module CameraSpec.
Import Camera.
#[local] Open Scope list_scope.
#[local] Open Scope thread_scope.

Section Backend.
Context {D Frame : Type} `{!Picamera2 D Frame}.
#[local] Abbreviation state := (state D Frame).
#[local] Abbreviation M := (StateExn state).
#[local] Abbreviation quiet := (appends not_trigger : relation state).
#[local] Abbreviation session := (same_session : relation state).

(** Symbolic execution of a straight-line piece of the manager: unfold
    the control operators, then split on each answer of the backend. *)
Ltac unfold_thread :=
  unfold events_of, events_since,
    record_clip, record_clip_enter, record_clip_session, record_to_sink,
    release_session, close_if_open, open_sink, close_sink,
    start_record_clip_async, spawn, capture_still, imwrite, pull_frame,
    set_flag,
    with_lock, try_finally_local, try_finally, try_except,
    attempt, reraise, pass, emit, call, modify, gets, bind, ret, raise.

Ltac answer :=
  match goal with
  | |- context [match ?f ?d with pair _ _ => _ end] =>
      lazymatch f with
      | _restart_camera => fail
      | _ => let E := fresh "E" in destruct (f d) as [[] ?] eqn:E; simpl
      end
  end.

Lemma state_ext (s1 s2 : state) :
  picam2 s1 = picam2 s2 -> base_dir s1 = base_dir s2 ->
  _preview_frame s1 = _preview_frame s2 ->
  _preview_running s1 = _preview_running s2 ->
  _recording s1 = _recording s2 ->
  _motion_stop_evt s1 = _motion_stop_evt s2 ->
  workers s1 = workers s2 -> disk s1 = disk s2 -> trace s1 = trace s2 ->
  s1 = s2.
Proof. destruct s1, s2; simpl; intros; subst; reflexivity. Qed.

Ltac tidy_log :=
  simpl; rewrite <- ?app_assoc; simpl; rewrite ?drop_app_length.

Ltac not_in_log H :=
  simpl in H; repeat (destruct H as [H|H]; [discriminate H|]); try contradiction.

(** Cancellation for [++] of strings. *)
Lemma append_inv_head (p a b : string) :
  (p ++ a = p ++ b)%string -> a = b.
Proof.
  induction p as [|c p IH]; intros E; [exact E|].
  change (String c (p ++ a) = String c (p ++ b))%string in E.
  injection E; auto.
Qed.

Lemma length_append (a b : string) :
  String.length (a ++ b)%string = (String.length a + String.length b)%nat.
Proof.
  induction a as [|c a IH]; [reflexivity|].
  change (S (String.length (a ++ b)%string) = S (String.length a + String.length b)).
  congruence.
Qed.

Lemma append_inv_tail (a b t : string) :
  (a ++ t = b ++ t)%string -> a = b.
Proof.
  revert b; induction a as [|c a IH]; intros [|c' b] E; simpl in E.
  - reflexivity.
  - apply (f_equal String.length) in E; simpl in E.
    rewrite !length_append in E; simpl in E; lia.
  - apply (f_equal String.length) in E; simpl in E.
    rewrite !length_append in E; simpl in E; lia.
  - change (String c a ++ t)%string with (String c (a ++ t)) in E.
    change (String c' b ++ t)%string with (String c' (b ++ t)) in E.
    injection E as -> E; f_equal; auto.
Qed.

Lemma still_path_inj (base ts1 ts2 : string) :
  path_join base ("still_" ++ ts1 ++ ".jpg")%string
  = path_join base ("still_" ++ ts2 ++ ".jpg")%string ->
  ts1 = ts2.
Proof.
  unfold path_join; intros E.
  apply append_inv_head, (append_inv_head "/"), (append_inv_head "still_") in E.
  apply append_inv_tail in E; exact E.
Qed.

(** The restart sequence moves the backend and adds its own events to the
    log; it touches nothing else. *)
Lemma restart_run (s : state) :
  exists r d b1 b2 b3 b4,
    _restart_camera s
    = (r, advance d
            ([RestartCamera; Acquire CameraLock; Device StopRecording b1;
              Device Stop b2; Device Configure b3]
             ++ (if b3 then [Device Start b4] else [])
             ++ [Release CameraLock]) s).
Proof.
  unfold _restart_camera; unfold_thread; unfold advance; simpl.
  destruct (stop_recording (picam2 s)) as [b1 d1].
  destruct (stop d1) as [b2 d2] eqn:E2.
  destruct (configure d2) as [b3 d3] eqn:E3.
  destruct (start d3) as [b4 d4] eqn:E4.
  exists (if b3 then if b4 then Ok tt else Raise (DeviceError Start)
          else Raise (DeviceError Configure)),
         (if b3 then d4 else d3), b1, b2, b3, b4.
  destruct b1, b2, b3, b4; simpl; rewrite ?E2; simpl; rewrite ?E3; simpl;
    rewrite ?E4; simpl; (f_equal; apply state_ext; simpl;
      rewrite <- ?app_assoc; reflexivity).
Qed.

Ltac restart :=
  match goal with
  | |- context [_restart_camera ?s] =>
      let r := fresh "r" in
      let d := fresh "d" in
      let b1 := fresh "b" in
      let b2 := fresh "b" in
      let b3 := fresh "b" in
      let b4 := fresh "b" in
      let E := fresh "E" in
      destruct (restart_run s) as [r [d [b1 [b2 [b3 [b4 E]]]]]];
      rewrite E; clear E; destruct r, b3; simpl
  end.

(** The sleep of [record_clip]: it is taken, or it raises. *)
Lemma sleep_run (secs : Z) (s : state) :
  sleep secs s
  = if (secs <? 9223372037)%Z
    then (Ok tt, log (Sleep (inject_Z secs)) s)
    else (Raise OverflowError, s).
Proof.
  unfold sleep; change SLEEP_LIMIT with 9223372037%Z.
  destruct (secs <? 9223372037)%Z; reflexivity.
Qed.

Ltac nap :=
  match goal with
  | |- context [sleep ?secs ?s] =>
      let E := fresh "Efit" in
      rewrite (sleep_run secs s);
      destruct (secs <? 9223372037)%Z eqn:E; simpl
  end.

Ltac step := first [nap | restart | answer].

(** *** Frame rules *)

Tactic Notation "framed" uconstr(L) := apply L; try typeclasses eauto.

Section Control.
Context (R : relation state) `{!PreOrder R}.

Lemma maintains_ret {A} (a : A) : maintains R (ret a).
Proof. intros s; simpl; reflexivity. Qed.

Lemma maintains_raise {A} e : maintains R (raise e : M A).
Proof. intros s; simpl; reflexivity. Qed.

Lemma maintains_gets {A} (f : state -> A) : maintains R (gets f).
Proof. intros s; simpl; reflexivity. Qed.

Lemma maintains_modify (f : state -> state) :
  (forall s, R s (f s)) -> maintains R (modify f).
Proof. intros Hf s; apply Hf. Qed.

Lemma maintains_bind {A B} (m : M A) (k : A -> M B) :
  maintains R m -> (forall a, maintains R (k a)) -> maintains R (bind m k).
Proof.
  intros Hm Hk s; unfold bind.
  specialize (Hm s); destruct (m s) as [[a|e] s1]; simpl in *; [|exact Hm].
  transitivity s1; [exact Hm | apply Hk].
Qed.

Lemma maintains_attempt {A} (m : M A) : maintains R m -> maintains R (attempt m).
Proof.
  intros Hm s; unfold attempt.
  specialize (Hm s); destruct (m s) as [r s1]; exact Hm.
Qed.

Lemma maintains_reraise {A} (r : outcome A) : maintains R (reraise r).
Proof. destruct r; [framed maintains_ret | framed maintains_raise]. Qed.

Lemma maintains_try_except {A} (m : M A) h :
  maintains R m -> (forall e, maintains R (h e)) -> maintains R (try_except m h).
Proof.
  intros Hm Hh; framed maintains_bind; [framed maintains_attempt; exact Hm|].
  intros [a|e]; [framed maintains_ret | apply Hh].
Qed.

Lemma maintains_try_finally {A} (m : M A) fin :
  maintains R m -> maintains R fin -> maintains R (try_finally m fin).
Proof.
  intros Hm Hf; framed maintains_bind; [framed maintains_attempt; exact Hm|].
  intros r; framed maintains_bind; [exact Hf | intros _; framed maintains_reraise].
Qed.

Lemma maintains_try_finally_local {L A} (pre : M L) (post : L -> M A) fin :
  maintains R pre -> (forall x, maintains R (post x)) ->
  (forall o, maintains R (fin o)) ->
  maintains R (try_finally_local pre post fin).
Proof.
  intros Hpre Hpost Hfin; framed maintains_bind; [framed maintains_attempt; exact Hpre|].
  intros [x|e].
  - framed maintains_bind; [framed maintains_attempt; apply Hpost|].
    intros r; framed maintains_bind; [apply Hfin | intros _; framed maintains_reraise].
  - framed maintains_bind; [apply Hfin | intros _; framed maintains_raise].
Qed.

End Control.

Section Tolerated.
Context (R : relation state) `{!Tolerates R}.

Lemma maintains_emit e : not_trigger e -> maintains R (emit e).
Proof. intros He s; apply tolerates_log, He. Qed.

Lemma maintains_with_lock {A} l (m : M A) :
  maintains R m -> maintains R (with_lock l m).
Proof.
  intros Hm; framed maintains_bind; [framed maintains_emit; exact I|].
  intros _; framed maintains_try_finally; [exact Hm|].
  framed maintains_emit; exact I.
Qed.

Lemma tolerates_device d e s : not_trigger e -> R s (log e (set_picam2 d s)).
Proof.
  intros He; transitivity (set_picam2 d s);
    [apply tolerates_picam2 | apply tolerates_log, He].
Qed.

Lemma maintains_call op (f : D -> bool * D) : maintains R (call op f).
Proof.
  intros s; unfold call; destruct (f (picam2 s)) as [b d]; simpl.
  apply tolerates_device; exact I.
Qed.

Lemma maintains_pull_frame : maintains R pull_frame.
Proof.
  intros s; unfold pull_frame.
  destruct (capture_array (picam2 s)) as [[f|] d]; simpl;
    apply tolerates_device; exact I.
Qed.

Lemma maintains_open_sink path : maintains R (open_sink path).
Proof.
  intros s; unfold open_sink.
  destruct (new_encoder (picam2 s)) as [[] d1]; simpl.
  - destruct (new_output d1) as [b d2]; simpl.
    etransitivity; [|apply tolerates_device; exact I].
    apply tolerates_device; exact I.
  - apply tolerates_device; exact I.
Qed.

Lemma maintains_close_sink path : maintains R (close_sink path).
Proof.
  intros s; unfold close_sink.
  destruct (output_close (picam2 s)) as [b d]; simpl.
  apply tolerates_device; exact I.
Qed.

Lemma maintains_imwrite path (f : Frame) : maintains R (imwrite path f).
Proof.
  intros s; unfold imwrite, modify; simpl.
  transitivity (set_disk (<[path := f]> (disk s)) s);
    [apply tolerates_disk | apply tolerates_log; exact I].
Qed.

End Tolerated.

Ltac maintains_step :=
  lazymatch goal with
  | |- maintains _ (ret _) => framed maintains_ret
  | |- maintains _ (raise _) => framed maintains_raise
  | |- maintains _ (gets _) => framed maintains_gets
  | |- maintains _ (emit _) => framed maintains_emit; exact I
  | |- maintains _ (sleep _) => unfold sleep
  | |- maintains _ (call _ _) => framed maintains_call
  | |- maintains _ pull_frame => framed maintains_pull_frame
  | |- maintains _ (open_sink _) => framed maintains_open_sink
  | |- maintains _ (close_sink _) => framed maintains_close_sink
  | |- maintains _ (imwrite _ _) => framed maintains_imwrite
  | |- maintains _ (with_lock _ _) => framed maintains_with_lock
  | |- maintains _ (try_except _ _) => framed maintains_try_except; [|intros ?]
  | |- maintains _ (try_finally _ _) => framed maintains_try_finally
  | |- maintains _ (try_finally_local _ _ _) =>
      framed maintains_try_finally_local; [|intros ?|intros ?]
  | |- maintains _ (attempt _) => framed maintains_attempt
  | |- maintains _ (bind _ _) => framed maintains_bind; [|intros ?]
  | |- maintains _ (match ?x with _ => _ end) => destruct x
  end.

Section Tolerated2.
Context (R : relation state) `{!Tolerates R}.

Lemma maintains_restart : maintains R _restart_camera.
Proof. unfold _restart_camera, pass; repeat maintains_step. Qed.

Lemma maintains_preview_iter : maintains R _preview_iter.
Proof.
  pose proof maintains_restart as Hrestart.
  unfold _preview_iter; repeat first [apply Hrestart | maintains_step].
  framed maintains_modify; intros s; apply tolerates_preview_frame.
Qed.

Lemma maintains_capture_still ts : maintains R (capture_still ts).
Proof. unfold capture_still; repeat maintains_step. Qed.

Lemma maintains_record_to_sink d path : maintains R (record_to_sink d path).
Proof.
  pose proof maintains_restart as Hrestart.
  unfold record_to_sink, pass; repeat first [apply Hrestart | maintains_step].
Qed.

Lemma maintains_close_if_open o : maintains R (close_if_open o).
Proof. unfold close_if_open; repeat maintains_step. Qed.

Lemma maintains_disable_motion : maintains R disable_motion.
Proof.
  framed maintains_modify; intros s; apply tolerates_motion_stop_evt.
Qed.

End Tolerated2.

(** *** The two relations *)

#[local] Instance appends_preorder P : PreOrder (appends P : relation state).
Proof.
  split.
  - intros s; exists []; rewrite app_nil_r; auto.
  - intros s1 s2 s3 (e1 & T1 & P1) (e2 & T2 & P2).
    exists (e1 ++ e2); rewrite T2, T1, app_assoc; split; auto.
    apply Forall_app; auto.
Qed.

Lemma appends_quiet P (s s' : state) : trace s' = trace s -> appends P s s'.
Proof. intros E; exists []; rewrite app_nil_r; auto. Qed.

#[local] Instance appends_tolerates : Tolerates quiet.
Proof.
  split; try (intros; apply appends_quiet; reflexivity).
  - apply _.
  - intros e s He; exists [e]; auto.
Qed.

#[local] Instance same_session_preorder : PreOrder session.
Proof.
  split.
  - intros s; split; reflexivity.
  - intros s1 s2 s3 [F1 W1] [F2 W2]; split; congruence.
Qed.

#[local] Instance same_session_tolerates : Tolerates session.
Proof. split; try (intros; split; reflexivity); apply _. Qed.

(** The operations on the session append to the log as well. *)
Lemma appends_set_flag b : maintains quiet (set_flag b).
Proof.
  unfold set_flag; maintains_step; [|maintains_step].
  framed maintains_modify; intros s; apply appends_quiet; reflexivity.
Qed.

Lemma appends_request d :
  maintains quiet (start_record_clip_async d).
Proof.
  unfold start_record_clip_async, spawn; repeat maintains_step.
  framed maintains_modify; intros s; apply appends_quiet; reflexivity.
Qed.

Lemma appends_run_action a : maintains quiet (run_action a).
Proof.
  pose proof (maintains_preview_iter quiet) as Hpreview.
  pose proof (maintains_capture_still quiet) as Hstill.
  pose proof (maintains_record_to_sink quiet) as Hrecord.
  pose proof (maintains_close_if_open quiet) as Hclose.
  pose proof (maintains_disable_motion quiet) as Hdisable.
  pose proof appends_set_flag as Hflag.
  pose proof appends_request as Hrequest.
  destruct a; unfold run_action, record_clip_enter, record_clip_session,
    release_session, set_worker, pass;
    repeat first
      [ apply Hpreview | apply Hstill | apply Hrecord | apply Hclose
      | apply Hdisable | apply Hflag | apply Hrequest
      | maintains_step
      | framed maintains_modify; intros ?; apply appends_quiet; reflexivity ].
Qed.

Lemma appends_run_actions acts :
  maintains quiet (run_actions acts).
Proof.
  induction acts as [|a acts IH]; simpl; [framed maintains_ret|].
  framed maintains_bind; [apply appends_run_action|]; intros r.
  framed maintains_bind; [exact IH|]; intros rs; framed maintains_ret.
Qed.

(** *** At most one recording session *)

Lemma owners_insert (ws : list worker) tid w0 w :
  ws !! tid = Some w0 ->
  (List.length (List.filter holding (<[tid := w]> ws))
   + (if holding w0 then 1 else 0)
   = List.length (List.filter holding ws) + (if holding w then 1 else 0))%nat.
Proof.
  revert tid; induction ws as [|x ws IH]; intros [|tid] H; try discriminate.
  - injection H as ->; simpl.
    destruct (holding w0), (holding w); simpl; lia.
  - simpl in H; specialize (IH tid H); simpl.
    destruct (holding x); simpl; lia.
Qed.

Lemma release_clears o (s : state) :
  _recording (release_session o s).2 = false
  /\ workers (release_session o s).2 = workers s.
Proof.
  unfold release_session, close_if_open; unfold_thread; simpl.
  destruct o; simpl; [destruct output_has_close; simpl|]; repeat answer; auto.
Qed.

Lemma session_end d ts (s : state) :
  _recording (record_clip_session d ts s).2 = false
  /\ workers (record_clip_session d ts s).2 = workers s.
Proof.
  unfold record_clip_session, try_finally_local, attempt, bind, gets; simpl.
  set (path := path_join (base_dir s) ("clip_" ++ ts ++ ".mp4")%string).
  destruct (maintains_open_sink session path s) as [_ W1].
  destruct (open_sink path s) as [[sink|e] s1]; simpl in *.
  - destruct (maintains_record_to_sink session d sink s1) as [_ W2].
    destruct (record_to_sink d sink s1) as [r s2]; simpl in *.
    destruct (release_clears (Some sink) s2) as [F3 W3].
    destruct (release_session (Some sink) s2) as [[[]|e] s3]; simpl in *;
      [destruct r|]; simpl; split; congruence.
  - destruct (release_clears None s1) as [F3 W3].
    destruct (release_session None s1) as [[[]|e'] s3]; simpl in *;
      split; congruence.
Qed.

(** Every step of the process keeps the session flag and the workers in
    step: the flag is set exactly while one worker owns the session, and
    no second worker can own it. *)
Lemma run_action_keeps_session a (s : state) :
  session_inv s -> session_inv (run_action a s).2.
Proof.
  unfold session_inv, owners; intros Hinv.
  assert (Hsame : forall s', session s s' ->
            List.length (List.filter holding (workers s'))
            = if _recording s' then 1%nat else 0%nat).
  { intros s' [-> ->]; exact Hinv. }
  destruct a as [|ts|d|tid|tid ts|].
  - apply Hsame.
    apply (maintains_bind session);
      [framed maintains_attempt; apply maintains_preview_iter; apply _
      |intros; framed maintains_ret].
  - apply Hsame.
    apply (maintains_bind session);
      [framed maintains_attempt; apply maintains_capture_still; apply _
      |intros; framed maintains_ret].
  - unfold run_action; unfold_thread; simpl.
    destruct (_recording s) eqn:Hrec; simpl; rewrite ?Hrec; auto.
    rewrite List.filter_app, List.length_app; simpl; lia.
  - unfold run_action, set_worker; unfold_thread; simpl.
    destruct (workers s !! tid) as [[d|d|r]|] eqn:Htid; simpl; auto.
    pose proof (owners_insert (workers s) tid (Ready d)) as Hins.
    destruct (_recording s) eqn:Hrec; simpl; rewrite ?Hrec.
    + specialize (Hins (Finished (Ok None)) Htid); simpl in Hins; lia.
    + specialize (Hins (Recording d) Htid); simpl in Hins; lia.
  - unfold run_action, set_worker, bind, gets, attempt, modify, ret; simpl.
    destruct (workers s !! tid) as [[d|d|r]|] eqn:Htid; simpl; auto.
    destruct (session_end d ts s) as [F W].
    destruct (record_clip_session d ts s) as [r s1]; simpl in *.
    rewrite F, W.
    pose proof (owners_insert (workers s) tid (Recording d) (Finished r) Htid)
      as Hins; simpl in Hins.
    destruct (_recording s); lia.
  - apply Hsame.
    apply (maintains_bind session);
      [apply maintains_disable_motion; apply _ | intros; framed maintains_ret].
Qed.

Lemma run_actions_keep_session acts (s : state) :
  session_inv s -> session_inv (run_actions acts s).2.
Proof.
  revert s; induction acts as [|a acts IH]; intros s Hinv; [exact Hinv|].
  simpl; unfold bind at 1.
  pose proof (run_action_keeps_session a s Hinv) as H1.
  destruct (run_action a s) as [[r|e] s1]; simpl in *; [|exact H1].
  unfold bind at 1.
  specialize (IH s1 H1).
  destruct (run_actions acts s1) as [[rs|e] s2]; simpl in *; exact IH.
Qed.

(** X1: from a fresh manager, whatever the schedule of requests, worker
    steps, stills and preview passes and whatever the camera answers: at
    most one worker owns the recording session, and [_recording] is set
    exactly while one does. *)
Lemma at_most_one_session acts (d : D) base :
  let s := (run_actions acts (idle d base)).2 in
  (owners s <= 1)%nat /\ (_recording s = true <-> owners s = 1%nat).
Proof.
  assert (H : session_inv (run_actions acts (idle d base)).2).
  { apply run_actions_keep_session; reflexivity. }
  unfold session_inv in H; simpl.
  destruct (_recording _); rewrite H; split; try lia; split; congruence.
Qed.

(** *** The motion loop *)

Lemma not_trigger_silent evs :
  Forall not_trigger evs -> motion_triggers evs = [].
Proof.
  unfold motion_triggers.
  induction 1 as [|e evs He _ IH]; [reflexivity|].
  destruct e; simpl in *; auto; contradiction.
Qed.

Lemma motion_triggers_app e1 e2 :
  motion_triggers (e1 ++ e2) = motion_triggers e1 ++ motion_triggers e2.
Proof. apply omap_app. Qed.

Lemma StronglySorted_lookup {A} (R : A -> A -> Prop) (l : list A) i j x y :
  StronglySorted R l -> (i < j)%nat ->
  l !! i = Some x -> l !! j = Some y -> R x y.
Proof.
  intros Hs; revert i j; induction Hs as [|a l Hs IH Ha]; intros i j Hij Hi Hj.
  - discriminate Hi.
  - destruct j as [|j]; [lia|]; simpl in Hj.
    destruct i as [|i]; simpl in Hi.
    + injection Hi as <-.
      rewrite Forall_forall in Ha; apply Ha.
      apply list_elem_of_lookup; eauto.
    + apply (IH i j); auto; lia.
Qed.

Lemma gt_true (x y : Q) : gt x y = true -> (y < x)%Q.
Proof.
  unfold gt; intros H; apply negb_true_iff in H.
  apply Qnot_le_lt; intros Hle; apply Qle_bool_iff in Hle; congruence.
Qed.

Section MotionLoop.
Context {Gray : Type}
  (smooth : Frame -> Gray) (contour_areas : Gray -> Gray -> list Q).
#[local] Abbreviation locals := (@motion_locals Gray).

(** One pass of the loop: what it logs and where it leaves the deadline. *)
Lemma motion_iter_run (now : Q) (loc : locals) (s : state) :
  exists loc' s' evs,
    _motion_iter smooth contour_areas now loc s = (Ok loc', s')
    /\ trace s' = trace s ++ evs
    /\ motion_triggers evs
       = (if fires smooth contour_areas now loc (_preview_frame s)
          then [(now, MOTION_CLIP_DURATION, negb (_recording s))] else [])
    /\ cool_down_until loc'
       = (if fires smooth contour_areas now loc (_preview_frame s)
          then (now + COOLDOWN)%Q else cool_down_until loc).
Proof.
  unfold _motion_iter, fires; unfold_thread; simpl.
  destruct (_preview_frame s) as [frame|]; simpl;
    [destruct (prev_gray loc) as [prev|]; simpl;
     [destruct (motion_detected contour_areas prev (smooth frame)); simpl;
      [destruct (gt now (cool_down_until loc)); simpl;
       [destruct (_recording s) eqn:Hrec; simpl; rewrite ?Hrec; simpl|]|]|]|];
    eexists _, _, _; (split; [reflexivity|]);
    (split; [simpl; rewrite <- ?app_assoc; reflexivity|]);
    split; reflexivity.
Qed.

Lemma fires_past_deadline now (loc : locals) slot :
  fires smooth contour_areas now loc slot = true -> (cool_down_until loc < now)%Q.
Proof.
  unfold fires; destruct slot; [|discriminate].
  destruct (prev_gray loc); [|discriminate].
  intros H; apply andb_true_iff in H as [_ H]; apply gt_true, H.
Qed.

(** The loop: every trigger comes after the deadline it found, asks for
    the fixed duration, and comes more than the cooldown after each
    earlier one. *)
Lemma motion_loop_log (ticks : list tick) :
  forall (loc : locals) (s : state),
  exists evs,
    trace (_motion_loop smooth contour_areas ticks loc s).2 = trace s ++ evs
    /\ StronglySorted (fun x y : Q * Z * bool => (x.1.1 + COOLDOWN < y.1.1)%Q)
         (motion_triggers evs)
    /\ Forall (fun x : Q * Z * bool =>
                 (cool_down_until loc < x.1.1)%Q
                 /\ x.1.2 = MOTION_CLIP_DURATION)
         (motion_triggers evs).
Proof.
  induction ticks as [|t rest IH]; intros loc s.
  { exists []; simpl; rewrite app_nil_r; repeat constructor. }
  simpl; unfold bind at 1.
  destruct (appends_run_actions (others t) s) as (e1 & T1 & Q1).
  destruct (run_actions (others t) s) as [[rs|e] s1]; simpl in T1 |- *.
  2: { exists e1; rewrite (not_trigger_silent e1 Q1); repeat constructor; auto. }
  unfold bind at 1, gets at 1; simpl.
  destruct (_motion_stop_evt s1); simpl.
  { exists e1; rewrite (not_trigger_silent e1 Q1); repeat constructor; auto. }
  unfold bind at 1.
  destruct (motion_iter_run (now t) loc s1) as (loc' & s2 & e2 & R2 & T2 & G2 & C2).
  rewrite R2.
  destruct (IH loc' s2) as (e3 & T3 & S3 & F3).
  exists (e1 ++ e2 ++ e3); split.
  { rewrite T3, T2, T1, !app_assoc; reflexivity. }
  rewrite !motion_triggers_app, (not_trigger_silent e1 Q1), G2; simpl.
  destruct (fires smooth contour_areas (now t) loc (_preview_frame s1)) eqn:Hfire; simpl.
  - apply fires_past_deadline in Hfire.
    rewrite C2 in F3.
    assert (Hlate : Forall (fun x : Q * Z * bool =>
                              (now t + COOLDOWN < x.1.1)%Q) (motion_triggers e3)).
    { eapply Forall_impl; [exact F3|]; simpl; tauto. }
    split; constructor; simpl; auto.
    eapply Forall_impl; [exact F3|]; simpl.
    intros x [Hx ->]; split; [|reflexivity].
    unfold COOLDOWN in *; lra.
  - rewrite C2 in F3; auto.
Qed.
End MotionLoop.

(** *** The specified properties *)

(** C1 (the code at the failing input): [start_record_clip_async] reads
    the session flag and never writes it, so a request leaves the flag as
    it found it and two requests made back to back get the same answer:
    both are accepted when no worker has entered [record_clip] yet. *)
Theorem requests_do_not_mark_session (s : state) (d1 d2 : Z) :
  let '(replies, s') := run_actions [RequestClip d1; RequestClip d2] s in
  replies = Ok [Accepted (Ok (negb (_recording s)));
                Accepted (Ok (negb (_recording s)))]
  /\ _recording s' = _recording s
  /\ workers s' = workers s
       ++ (if _recording s then [] else [Ready d1; Ready d2]).
Proof.
  unfold run_actions, run_action; unfold_thread; simpl.
  destruct (_recording s) eqn:E; simpl; rewrite ?E; simpl;
    rewrite <- ?app_assoc, ?app_nil_r; auto.
Qed.


(** C3 (as amended): once the recording work owns the session, every
    way out of it -- a returned path or an exception of the encoder, the
    sink, the device, the sleep or the restart -- ends with the flag
    cleared under the session lock as the last thing done; the flag is
    touched nowhere in between, and the next request is accepted.  The
    sink is closed just before, when it was built and has a [close]; a
    sink that has no [close] is never closed. *)
Theorem recording_always_releases_session
    (s : state) (duration : Z) (ts : string) (next : Z) :
  _recording s = false ->
  let path := path_join (base_dir s) ("clip_" ++ ts ++ ".mp4")%string in
  let s' := (record_clip duration ts s).2 in
  let evs := events_of (record_clip duration ts) s in
  (exists body,
      evs = [Acquire RecordLock; SetRecording true; Release RecordLock]
            ++ body
            ++ [Acquire RecordLock; SetRecording false; Release RecordLock]
      /\ (forall flag, ~ In (SetRecording flag) body)
      /\ (In (NewOutput path true) body -> output_has_close = true ->
          exists ok, last body = Some (CloseOutput path ok))
      /\ (output_has_close = false ->
          forall p ok, ~ In (CloseOutput p ok) body))
  /\ _recording s' = false
  /\ (start_record_clip_async next s').1 = Ok true.
Proof.
  intros Hidle; unfold_thread; simpl; rewrite Hidle; simpl.
  destruct output_has_close eqn:Hclose; repeat step; tidy_log;
    (split; [|split; reflexivity]);
    match goal with
    | |- exists body, ?l = _ /\ _ =>
        exists (take (List.length l - 6) (drop 3 l))
    end; simpl;
    (split; [reflexivity|]);
    (split; [intros flag H; not_in_log H|]);
    (split;
     [intros Hin Hc;
      first [discriminate Hc | eexists; reflexivity | not_in_log Hin]
     |intros Hc p ok H; first [discriminate Hc | not_in_log H]]).
Qed.

Section MotionRate.
Context {Gray : Type}
  (smooth : Frame -> Gray) (contour_areas : Gray -> Gray -> list Q).
#[local] Abbreviation locals := (@motion_locals Gray).

(** C4 (as amended): in one run of the motion loop (one thread, from
    its start to its exit) a pass requests a clip exactly when a frame
    and a previous frame are there, motion is declared and the clock is
    past the deadline: it then calls [start_record_clip_async] with the
    default duration of a manual clip, which starts a worker unless a
    session is active, and moves the deadline to forty seconds after this
    instant whether the request was accepted or not.  So within the run
    every trigger comes more than the cooldown window after each earlier
    one.  The other threads log no trigger. *)
Theorem motion_triggers_rate_limited (ticks : list tick) (s : state) :
  let trig :=
    motion_triggers
      (events_of (_motion_loop smooth contour_areas ticks motion_start) s) in
  (forall i j t1 d1 a1 t2 d2 a2,
      (i < j)%nat ->
      trig !! i = Some (t1, d1, a1) -> trig !! j = Some (t2, d2, a2) ->
      (t1 + COOLDOWN < t2)%Q)
  /\ (forall t d a, In (t, d, a) trig -> d = DEFAULT_DURATION /\ (0 < t)%Q)
  /\ (forall now (loc : locals) (s0 : state),
        let '(r, s1) := _motion_iter smooth contour_areas now loc s0 in
        let fired := fires smooth contour_areas now loc (_preview_frame s0) in
        events_since s0 s1
        = [Acquire FrameLock; Release FrameLock]
          ++ (if fired
              then [Acquire RecordLock; Release RecordLock]
                   ++ (if _recording s0 then []
                       else [ThreadStart DEFAULT_DURATION])
                   ++ [MotionTrigger now DEFAULT_DURATION
                         (negb (_recording s0))]
              else [])
          ++ [Sleep (1 # 10)]
        /\ workers s1
           = workers s0
             ++ (if fired && negb (_recording s0)
                 then [Ready DEFAULT_DURATION] else [])
        /\ _recording s1 = _recording s0
        /\ exists loc',
            r = Ok loc'
            /\ cool_down_until loc'
               = (if fired then (now + 40)%Q else cool_down_until loc))
  /\ (forall acts (s0 : state),
        motion_triggers (events_of (run_actions acts) s0) = []).
Proof.
  unfold events_of, events_since.
  destruct (motion_loop_log smooth contour_areas ticks motion_start s)
    as (evs & T & S & F).
  rewrite T, drop_app_length; simpl.
  split; [|split; [|split]].
  - intros i j t1 d1 a1 t2 d2 a2 Hij Hi Hj.
    exact (StronglySorted_lookup _ _ i j _ _ S Hij Hi Hj).
  - intros t d a Hin.
    rewrite Forall_forall in F.
    apply list_elem_of_In, F in Hin; simpl in Hin.
    destruct Hin as [Ht ->]; split; [reflexivity | exact Ht].
  - intros now loc s0.
    unfold _motion_iter, fires; unfold_thread; simpl.
    destruct (_preview_frame s0) as [frame|]; simpl;
      [destruct (prev_gray loc) as [prev|]; simpl;
       [destruct (motion_detected contour_areas prev (smooth frame)); simpl;
        [destruct (gt now (cool_down_until loc)); simpl;
         [destruct (_recording s0) eqn:Hrec; simpl; rewrite ?Hrec; simpl|]|]|]|];
      tidy_log; rewrite ?app_nil_r;
      repeat split; try reflexivity; eexists; split; reflexivity.
  - intros acts s0.
    destruct (appends_run_actions acts s0) as (e1 & T1 & Q1).
    rewrite T1, drop_app_length; apply not_trigger_silent; exact Q1.
Qed.

End MotionRate.

(** C5: with a frame in the slot, [capture_still] writes that frame to
    [still_<timestamp>.jpg] under the media directory and returns the
    path, without any call of the device; with an empty slot it pulls a
    frame from the device under the device lock and, the pull succeeding,
    writes that frame and returns the path. *)
Theorem capture_still_reads_slot_or_pulls (s : state) (ts : string) :
  let path := path_join (base_dir s) ("still_" ++ ts ++ ".jpg")%string in
  let '(r, s') := capture_still ts s in
  match _preview_frame s with
  | Some f =>
      r = Ok path
      /\ events_since s s'
         = [Acquire FrameLock; Release FrameLock; Imwrite path]
      /\ disk s' = <[path := f]> (disk s)
      /\ picam2 s' = picam2 s
  | None =>
      forall f d', capture_array (picam2 s) = (Some f, d') ->
      r = Ok path
      /\ events_since s s'
         = [Acquire FrameLock; Release FrameLock;
            Acquire CameraLock; Device CaptureArray true; Release CameraLock;
            Imwrite path]
      /\ disk s' = <[path := f]> (disk s)
      /\ picam2 s' = d'
  end.
Proof.
  unfold_thread; simpl.
  destruct (_preview_frame s) as [f|]; simpl.
  - tidy_log; auto.
  - destruct (capture_array (picam2 s)) as [[f|] d] eqn:E; simpl.
    + intros f' d' [= <- <-]; tidy_log; auto.
    + intros f' d' [=].
Qed.

(** C6 (as amended): under the device lock the restart sequence calls
    stop-recording, stop, configure and start in this order; a failure of
    stop-recording or of stop is caught on the spot and the sequence goes
    on, a failure of configure or of start is raised to the caller once
    the lock is released, and a failed configure skips start. *)
Theorem restart_swallows_best_effort_steps_only (s : state) :
  let '(b1, d1) := stop_recording (picam2 s) in
  let '(b2, d2) := stop d1 in
  let '(b3, d3) := configure d2 in
  let '(b4, d4) := start d3 in
  events_of _restart_camera s
  = [RestartCamera; Acquire CameraLock;
     Device StopRecording b1; Device Stop b2; Device Configure b3]
    ++ (if b3 then [Device Start b4] else [])
    ++ [Release CameraLock]
  /\ (_restart_camera s).1
     = (if b3
        then if b4 then Ok tt else Raise (DeviceError Start)
        else Raise (DeviceError Configure)).
Proof.
  unfold _restart_camera; unfold_thread; simpl.
  repeat answer; tidy_log; auto.
Qed.

(** C7 (as amended): two calls of [capture_still] with no frame published
    in between read the same frame from the slot and write it twice: each
    returned path holds that frame.  The timestamps have a resolution of
    one second: the two paths differ exactly when the timestamps do, and
    then two files are produced; with equal timestamps the second call
    writes over the file of the first, and one file is produced. *)
Theorem repeated_still_rereads_frame
    (s : state) (f : Frame) (ts1 ts2 : string) :
  _preview_frame s = Some f ->
  let p1 := path_join (base_dir s) ("still_" ++ ts1 ++ ".jpg")%string in
  let p2 := path_join (base_dir s) ("still_" ++ ts2 ++ ".jpg")%string in
  let '(r1, s1) := capture_still ts1 s in
  let '(r2, s2) := capture_still ts2 s1 in
  (r1 = Ok p1 /\ r2 = Ok p2)
  /\ _preview_frame s1 = Some f
  /\ disk s2 = <[p2 := f]> (<[p1 := f]> (disk s))
  /\ (disk s2 !! p1 = Some f /\ disk s2 !! p2 = Some f)
  /\ (p1 = p2 <-> ts1 = ts2)
  /\ (disk s !! p1 = None -> disk s !! p2 = None ->
      size (disk s2)
      = (size (disk s) + (if decide (ts1 = ts2) then 1 else 2))%nat).
Proof.
  intros Hslot; unfold_thread; simpl; rewrite Hslot; simpl;
    rewrite ?Hslot; simpl.
  assert (Hinj : path_join (base_dir s) ("still_" ++ ts1 ++ ".jpg")%string
                 = path_join (base_dir s) ("still_" ++ ts2 ++ ".jpg")%string
                 <-> ts1 = ts2).
  { split; [apply still_path_inj | intros ->; reflexivity]. }
  repeat split; auto.
  - destruct (decide (ts1 = ts2)) as [->|Hne].
    + apply lookup_insert_eq.
    + rewrite lookup_insert_ne by (intros E; apply Hne, Hinj; symmetry; exact E).
      apply lookup_insert_eq.
  - apply lookup_insert_eq.
  - apply Hinj.
  - apply Hinj.
  - intros H1 H2; destruct (decide (ts1 = ts2)) as [->|Hne].
    + rewrite insert_insert_eq, map_size_insert_None by exact H1; lia.
    + rewrite map_size_insert_None.
      * rewrite map_size_insert_None by exact H1; lia.
      * rewrite lookup_insert_ne by (intros E; apply Hne, Hinj; exact E).
        exact H2.
Qed.

(** *** The locks a thread holds *)

Lemma run_locks_app h evs1 evs2 :
  run_locks h (evs1 ++ evs2)
  = match run_locks h evs1 with
    | Some h' => run_locks h' evs2
    | None => None
    end.
Proof.
  revert h; induction evs1 as [|e evs1 IH]; intros h; simpl; [reflexivity|].
  destruct (lock_step h e); auto.
Qed.

#[local] Abbreviation holds := (@holds D Frame).

#[local] Instance holds_preorder h : PreOrder (holds h).
Proof.
  split.
  - intros s; exists []; rewrite app_nil_r; auto.
  - intros s1 s2 s3 (e1 & T1 & L1) (e2 & T2 & L2).
    exists (e1 ++ e2); rewrite T2, T1, app_assoc; split; auto.
    rewrite run_locks_app, L1; exact L2.
Qed.

Lemma holds_emit h e : lock_step h e = Some h -> maintains (holds h) (emit e).
Proof. intros He s; exists [e]; simpl; rewrite He; auto. Qed.

Lemma holds_modify h (f : state -> state) :
  (forall s, trace (f s) = trace s) -> maintains (holds h) (modify f).
Proof. intros Hf s; exists []; simpl; rewrite app_nil_r, Hf; auto. Qed.

Lemma holds_call op (f : D -> bool * D) :
  maintains (holds (Some CameraLock)) (call op f).
Proof.
  intros s; unfold call; destruct (f (picam2 s)) as [b d].
  exists [Device op b]; simpl; auto.
Qed.

Lemma holds_pull_frame : maintains (holds (Some CameraLock)) pull_frame.
Proof.
  intros s; unfold pull_frame.
  destruct (capture_array (picam2 s)) as [[f|] d]; eexists [_]; simpl; auto.
Qed.

Lemma holds_open_sink path : maintains (holds None) (open_sink path).
Proof.
  intros s; unfold open_sink.
  destruct (new_encoder (picam2 s)) as [[] d1]; simpl.
  - destruct (new_output d1) as [b d2]; eexists [_; _]; simpl.
    rewrite <- app_assoc; split; reflexivity.
  - eexists [_]; simpl; auto.
Qed.

Lemma holds_close_sink path : maintains (holds None) (close_sink path).
Proof.
  intros s; unfold close_sink.
  destruct (output_close (picam2 s)) as [b d]; eexists [_]; simpl; auto.
Qed.

Lemma holds_imwrite path (f : Frame) : maintains (holds None) (imwrite path f).
Proof. intros s; exists [Imwrite path]; simpl; auto. Qed.

(** [with l: m] takes the lock from a thread that holds none, keeps it
    while [m] runs and gives it back however [m] ends. *)
Lemma holds_with_lock {A} l (m : M A) :
  maintains (holds (Some l)) m -> maintains (holds None) (with_lock l m).
Proof.
  intros Hm s; unfold with_lock, try_finally, attempt, bind, emit, modify; simpl.
  destruct (Hm (log (Acquire l) s)) as (evs & T & L).
  destruct (m (log (Acquire l) s)) as [r s1]; simpl in *.
  assert (Hl : lock_eqb l l = true) by (destruct l; reflexivity).
  exists ([Acquire l] ++ evs ++ [Release l]); split.
  - destruct r; simpl; rewrite T; simpl; rewrite <- !app_assoc; reflexivity.
  - simpl; rewrite run_locks_app, L; simpl; rewrite Hl; reflexivity.
Qed.

Ltac locks_step :=
  lazymatch goal with
  | |- maintains _ (ret _) => framed maintains_ret
  | |- maintains _ (raise _) => framed maintains_raise
  | |- maintains _ (gets _) => framed maintains_gets
  | |- maintains _ (emit _) => apply holds_emit; reflexivity
  | |- maintains _ (sleep _) => unfold sleep
  | |- maintains _ (call _ _) => apply holds_call
  | |- maintains _ pull_frame => apply holds_pull_frame
  | |- maintains _ (open_sink _) => apply holds_open_sink
  | |- maintains _ (close_sink _) => apply holds_close_sink
  | |- maintains _ (imwrite _ _) => apply holds_imwrite
  | |- maintains _ (modify _) => apply holds_modify; intros; reflexivity
  | |- maintains _ (with_lock _ _) => apply holds_with_lock
  | |- maintains _ (try_except _ _) => framed maintains_try_except; [|intros ?]
  | |- maintains _ (try_finally _ _) => framed maintains_try_finally
  | |- maintains _ (try_finally_local _ _ _) =>
      framed maintains_try_finally_local; [|intros ?|intros ?]
  | |- maintains _ (attempt _) => framed maintains_attempt
  | |- maintains _ (bind _ _) => framed maintains_bind; [|intros ?]
  | |- maintains _ (match ?x with _ => _ end) => destruct x
  end.

Lemma holds_restart : maintains (holds None) _restart_camera.
Proof. unfold _restart_camera, pass; repeat locks_step. Qed.

Lemma holds_request d : maintains (holds None) (start_record_clip_async d).
Proof. unfold start_record_clip_async, spawn; repeat locks_step. Qed.

Lemma holds_start_preview : maintains (holds None) start_preview.
Proof. unfold start_preview; repeat locks_step. Qed.

Lemma holds_run_action a : maintains (holds None) (run_action a).
Proof.
  pose proof holds_restart as Hrestart.
  pose proof holds_request as Hrequest.
  destruct a; unfold run_action, _preview_iter, capture_still,
    record_clip_enter, record_clip_session, record_to_sink, release_session,
    close_if_open, set_flag, set_worker, disable_motion, pass;
    repeat first [apply Hrestart | apply Hrequest | locks_step].
Qed.

Lemma holds_run_actions acts : maintains (holds None) (run_actions acts).
Proof.
  induction acts as [|a acts IH]; simpl; [framed maintains_ret|].
  framed maintains_bind; [apply holds_run_action|]; intros r.
  framed maintains_bind; [exact IH|]; intros rs; framed maintains_ret.
Qed.

Section MotionLocks.
Context {Gray : Type}
  (smooth : Frame -> Gray) (contour_areas : Gray -> Gray -> list Q).

Lemma holds_motion_iter now loc :
  maintains (holds None) (_motion_iter smooth contour_areas now loc).
Proof.
  pose proof holds_request as Hrequest.
  unfold _motion_iter; repeat first [apply Hrequest | locks_step].
Qed.

Lemma holds_motion_loop ticks :
  forall loc, maintains (holds None) (_motion_loop smooth contour_areas ticks loc).
Proof.
  induction ticks as [|t rest IH]; intros loc; simpl; [framed maintains_ret|].
  framed maintains_bind; [apply holds_run_actions|]; intros _.
  framed maintains_bind; [framed maintains_gets|]; intros stopped.
  destruct (negb stopped); [|framed maintains_ret].
  framed maintains_bind; [apply holds_motion_iter|]; intros loc'; apply IH.
Qed.

(** X2: whatever the backend answers and however the threads interleave,
    the log of the process, of the motion loop and of [start_preview]
    keeps to the locking rules and ends with no lock held: no lock is
    taken while another is held, every lock taken is given back, every
    call of the camera stack is made under [_camera_lock], every write of
    [_recording] under [_record_lock], and the sleeps, the ffmpeg sink,
    the file writes and the thread starts happen with no lock held. *)
Theorem lock_discipline (ticks : list tick) (acts : list action) (s : state) :
  run_locks None (events_of (run_actions acts) s) = Some None
  /\ run_locks None
       (events_of (_motion_loop smooth contour_areas ticks motion_start) s)
     = Some None
  /\ run_locks None (events_of start_preview s) = Some None.
Proof.
  unfold events_of, events_since; repeat split.
  - destruct (holds_run_actions acts s) as (evs & T & L).
    rewrite T, drop_app_length; exact L.
  - destruct (holds_motion_loop ticks motion_start s) as (evs & T & L).
    rewrite T, drop_app_length; exact L.
  - destruct (holds_start_preview s) as (evs & T & L).
    rewrite T, drop_app_length; exact L.
Qed.
End MotionLocks.

(** *** The preview loop *)

(** X3: while the preview runs, one pass of the preview loop never raises
    and never leaves the loop, whatever the camera does; it touches
    neither the recording session nor the files.  When the pull yields a
    frame, the frame is published in the slot.  When the pull raises, the
    slot keeps the frame it had, the loop sleeps 0.1 s and runs the
    restart sequence once, and sleeps 0.5 s more when the restart raised
    (configure or start failed). *)
Theorem preview_pass_publishes_or_recovers (s : state) :
  _preview_running s = true ->
  let '(r, s') := _preview_iter s in
  r = Ok true
  /\ _preview_running s' = true
  /\ same_session s s'
  /\ disk s' = disk s
  /\ match capture_array (picam2 s) with
     | (Some f, d) =>
         _preview_frame s' = Some f
         /\ picam2 s' = d
         /\ events_since s s'
            = [Acquire FrameLock; Release FrameLock;
               Acquire CameraLock; Device CaptureArray true; Release CameraLock;
               Acquire FrameLock; Release FrameLock]
     | (None, d0) =>
         let '(b1, d1) := stop_recording d0 in
         let '(b2, d2) := stop d1 in
         let '(b3, d3) := configure d2 in
         let '(b4, d4) := start d3 in
         _preview_frame s' = _preview_frame s
         /\ events_since s s'
            = [Acquire FrameLock; Release FrameLock;
               Acquire CameraLock; Device CaptureArray false; Release CameraLock;
               Sleep (1 # 10);
               RestartCamera; Acquire CameraLock; Device StopRecording b1;
               Device Stop b2; Device Configure b3]
              ++ (if b3 then [Device Start b4] else [])
              ++ [Release CameraLock]
              ++ (if b3 && b4 then [] else [Sleep (1 # 2)])
     end.
Proof.
  intros Hrun; unfold _preview_iter, _restart_camera; unfold_thread; simpl.
  rewrite Hrun; simpl.
  destruct (capture_array (picam2 s)) as [[f|] d0]; simpl.
  - tidy_log; repeat split; auto.
  - repeat answer; tidy_log; repeat split; auto.
Qed.

Lemma frame_pulls_app e1 e2 :
  frame_pulls (e1 ++ e2) = frame_pulls e1 ++ frame_pulls e2.
Proof. apply omap_app. Qed.

(** One pass pulls one frame and goes on. *)
Lemma preview_iter_step (s : state) :
  _preview_running s = true ->
  exists s' evs,
    _preview_iter s = (Ok true, s')
    /\ _preview_running s' = true
    /\ same_session s s'
    /\ disk s' = disk s
    /\ trace s' = trace s ++ evs
    /\ List.length (frame_pulls evs) = 1%nat.
Proof.
  intros Hrun; unfold _preview_iter; unfold_thread; simpl.
  rewrite Hrun; simpl.
  destruct (capture_array (picam2 s)) as [[f|] d0]; simpl.
  - eexists _, _; (split; [reflexivity|]); simpl; repeat split;
      rewrite <- ?app_assoc; first [exact Hrun | reflexivity].
  - restart; (eexists _, _; (split; [reflexivity|]); simpl; repeat split;
      rewrite <- ?app_assoc; first [exact Hrun | reflexivity]).
Qed.

(** X4: while the preview runs, the preview loop goes on for any number
    of passes, whatever the camera does: no failure of a pull or of a
    restart ends it, each pass pulls exactly one frame, and the recording
    session and the files are left as they were. *)
Theorem preview_loop_never_stops (passes : nat) (s : state) :
  _preview_running s = true ->
  let '(r, s') := _preview_loop passes s in
  r = Ok true
  /\ _preview_running s' = true
  /\ same_session s s'
  /\ disk s' = disk s
  /\ List.length (frame_pulls (events_since s s')) = passes.
Proof.
  assert (H : forall n s, _preview_running s = true ->
    exists s' evs,
      _preview_loop n s = (Ok true, s')
      /\ _preview_running s' = true /\ same_session s s' /\ disk s' = disk s
      /\ trace s' = trace s ++ evs /\ List.length (frame_pulls evs) = n).
  { induction n as [|n IH]; intros s0 Hrun.
    - exists s0, []; simpl; rewrite app_nil_r; repeat split; auto.
    - destruct (preview_iter_step s0 Hrun)
        as (s1 & e1 & R1 & Hrun1 & [F1 W1] & D1 & T1 & N1).
      destruct (IH s1 Hrun1) as (s2 & e2 & R2 & Hrun2 & [F2 W2] & D2 & T2 & N2).
      exists s2, (e1 ++ e2); simpl; unfold bind; rewrite R1, R2.
      repeat split; try congruence.
      + rewrite T2, T1, app_assoc; reflexivity.
      + rewrite frame_pulls_app, List.length_app; lia. }
  intros Hrun; destruct (H passes s Hrun) as (s' & evs & R & ? & ? & ? & T & N).
  rewrite R; unfold events_since; rewrite T, drop_app_length; auto.
Qed.


(** *** Edges of the still and of the clip *)

(** X6: with an empty slot and a camera whose pull raises, [capture_still]
    raises that error to its caller after releasing the camera lock:
    nothing is written, the slot stays empty, the session is untouched
    and the restart sequence is not run. *)
Theorem capture_still_failed_pull_writes_nothing (s : state) (ts : string) (d : D) :
  _preview_frame s = None ->
  capture_array (picam2 s) = (None, d) ->
  let '(r, s') := capture_still ts s in
  r = Raise (DeviceError CaptureArray)
  /\ disk s' = disk s
  /\ _preview_frame s' = None
  /\ same_session s s'
  /\ events_since s s'
     = [Acquire FrameLock; Release FrameLock;
        Acquire CameraLock; Device CaptureArray false; Release CameraLock].
Proof.
  intros Hslot Hpull; unfold_thread; simpl; rewrite Hslot; simpl.
  rewrite Hpull; simpl; tidy_log; repeat split; auto.
Qed.

(** X7: called while a session is active, [record_clip] returns [None]
    and does nothing but take and release [_record_lock]: no encoder, no
    sink, no call of the camera, and the flag stays set for the session
    that owns it. *)
Theorem busy_record_clip_changes_nothing (s : state) (duration : Z) (ts : string) :
  _recording s = true ->
  record_clip duration ts s
  = (Ok None, advance (picam2 s) [Acquire RecordLock; Release RecordLock] s).
Proof.
  intros Hbusy; unfold_thread; simpl; rewrite Hbusy; simpl.
  f_equal; apply state_ext; simpl; rewrite <- ?app_assoc; auto.
Qed.

(** X5: [start_preview] marks the preview as running before it starts
    the camera, so it starts the camera at most once: on a manager marked
    as running it returns without touching the camera, and after any call
    (also one whose [picam2.start()] raised, in which case no preview
    thread exists) the next call does nothing. *)
Theorem start_preview_never_retries (s : state) :
  let '(r, s') := start_preview s in
  _preview_running s' = true
  /\ (if _preview_running s
      then r = Ok false /\ picam2 s' = picam2 s
           /\ events_since s s' = [Acquire FrameLock; Release FrameLock]
      else let '(ok, d) := start (picam2 s) in
           r = (if ok then Ok true else Raise (DeviceError Start))
           /\ picam2 s' = d
           /\ events_since s s'
              = [Acquire FrameLock; Release FrameLock;
                 Acquire CameraLock; Device Start ok; Release CameraLock])
  /\ (let '(r2, s2) := start_preview s' in
      r2 = Ok false /\ picam2 s2 = picam2 s'
      /\ events_since s' s2 = [Acquire FrameLock; Release FrameLock]).
Proof.
  assert (again : forall s0 : state, _preview_running s0 = true ->
            let '(r2, s2) := start_preview s0 in
            r2 = Ok false /\ picam2 s2 = picam2 s0
            /\ events_since s0 s2 = [Acquire FrameLock; Release FrameLock]).
  { intros s0 H0; unfold start_preview; unfold_thread; simpl; rewrite H0.
    tidy_log; repeat split. }
  assert (once : let '(r, s') := start_preview s in
            _preview_running s' = true
            /\ (if _preview_running s
                then r = Ok false /\ picam2 s' = picam2 s
                     /\ events_since s s' = [Acquire FrameLock; Release FrameLock]
                else let '(ok, d) := start (picam2 s) in
                     r = (if ok then Ok true else Raise (DeviceError Start))
                     /\ picam2 s' = d
                     /\ events_since s s'
                        = [Acquire FrameLock; Release FrameLock;
                           Acquire CameraLock; Device Start ok;
                           Release CameraLock])).
  { destruct (_preview_running s) eqn:Hrun.
    - pose proof (again s Hrun) as H0.
      destruct (start_preview s) as [r s'] eqn:E; split; [|exact H0].
      revert E; unfold start_preview; unfold_thread; simpl; rewrite Hrun.
      simpl; intros [= _ <-]; exact Hrun.
    - unfold start_preview; unfold_thread; simpl; rewrite Hrun; simpl.
      destruct (start (picam2 s)) as [[] d] eqn:E; tidy_log; repeat split. }
  destruct (start_preview s) as [r s'].
  destruct once as [Hrun' Hfirst].
  split; [exact Hrun'|]; split; [exact Hfirst|]; exact (again s' Hrun').
Qed.

(** *** The stop event *)

#[local] Instance untouched_preorder {X} (f : state -> X) : PreOrder (untouched f).
Proof. split; unfold untouched; [intros s|intros s1 s2 s3 ? ?]; congruence. Qed.

(** A primitive that leaves a field alone: by computation. *)
Ltac field_prim :=
  let s := fresh "s" in
  intros s; unfold untouched, call, pull_frame, open_sink, close_sink, imwrite,
    emit, modify, gets, ret, raise; simpl;
  repeat (match goal with
          | |- context [match ?x with _ => _ end] => destruct x; simpl
          end);
  reflexivity.

Ltac field_step :=
  lazymatch goal with
  | |- maintains _ (ret _) => framed maintains_ret
  | |- maintains _ (raise _) => framed maintains_raise
  | |- maintains _ (gets _) => framed maintains_gets
  | |- maintains _ (sleep _) => unfold sleep
  | |- maintains _ (with_lock _ _) =>
      unfold with_lock; framed maintains_bind; [|intros ?]
  | |- maintains _ (try_except _ _) => framed maintains_try_except; [|intros ?]
  | |- maintains _ (try_finally _ _) => framed maintains_try_finally
  | |- maintains _ (try_finally_local _ _ _) =>
      framed maintains_try_finally_local; [|intros ?|intros ?]
  | |- maintains _ (attempt _) => framed maintains_attempt
  | |- maintains _ (bind _ _) => framed maintains_bind; [|intros ?]
  | |- maintains _ (match ?x with _ => _ end) => destruct x
  | |- maintains _ _restart_camera => unfold _restart_camera, pass
  | |- maintains _ _ => field_prim
  end.

Ltac unfold_ops :=
  unfold run_action, _preview_iter, _restart_camera, capture_still,
    start_record_clip_async, spawn, record_clip, record_clip_enter,
    record_clip_session, record_to_sink, release_session, close_if_open,
    set_flag, set_worker, pass.

(** No action but [DisableMotion] touches the stop event. *)
Lemma stop_event_untouched a :
  a <> DisableMotion -> maintains (untouched _motion_stop_evt) (run_action a).
Proof.
  intros Ha; destruct a; try congruence; unfold_ops; repeat field_step.
Qed.

Lemma run_action_returns a (s : state) : exists r, (run_action a s).1 = Ok r.
Proof.
  destruct a; unfold run_action, set_worker, disable_motion, bind, attempt,
    gets, modify, ret; simpl.
  - destruct (_preview_iter s); eauto.
  - destruct (capture_still ts s); eauto.
  - destruct (start_record_clip_async duration s); eauto.
  - destruct (workers s !! tid) as [[d|d|r]|]; simpl; eauto.
    destruct (record_clip_enter s); simpl; eauto.
  - destruct (workers s !! tid) as [[d|d|r]|]; simpl; eauto.
    destruct (record_clip_session d ts s); simpl; eauto.
  - eauto.
Qed.

Lemma stop_event_stays_set acts (s : state) :
  _motion_stop_evt s = true ->
  exists rs s',
    run_actions acts s = (Ok rs, s') /\ _motion_stop_evt s' = true.
Proof.
  revert s; induction acts as [|a acts IH]; intros s Hstop; simpl.
  { exists [], s; auto. }
  assert (Hs1 : _motion_stop_evt (run_action a s).2 = true).
  { destruct a;
      lazymatch goal with
      | |- _ (run_action DisableMotion _).2 = _ => reflexivity
      | |- _ (run_action ?a _).2 = _ =>
          exact (eq_trans (stop_event_untouched a ltac:(discriminate) s) Hstop)
      end. }
  destruct (run_action_returns a s) as [r Hr].
  unfold bind at 1.
  destruct (run_action a s) as [r' s1]; simpl in *; subst r'.
  destruct (IH s1 Hs1) as (rs & s2 & Hrs & Hs2).
  unfold bind; rewrite Hrs; simpl.
  exists (r :: rs), s2; auto.
Qed.

Section MotionStop.
Context {Gray : Type}
  (smooth : Frame -> Gray) (contour_areas : Gray -> Gray -> list Q).

Lemma motion_loop_stopped (t : tick) (rest : list tick)
    (loc : @motion_locals Gray) (s : state) :
  _motion_stop_evt s = true ->
  _motion_loop smooth contour_areas (t :: rest) loc s
  = (Ok loc, (run_actions (others t) s).2).
Proof.
  intros Hstop; simpl; unfold bind at 1.
  destruct (stop_event_stays_set (others t) s Hstop) as (rs & s1 & Hrs & Hs1).
  rewrite Hrs; unfold bind, gets; simpl; rewrite Hs1; reflexivity.
Qed.

(** X9: once the stop event is set, nothing the other threads do clears
    it, and the motion loop leaves at its next test of the event: it runs
    no detection pass, requests no clip and does not sleep, so the state
    is the one the other threads left. *)
Theorem stopped_motion_loop_leaves (t : tick) (rest : list tick)
    (loc : @motion_locals Gray) (s : state) :
  _motion_stop_evt s = true ->
  _motion_loop smooth contour_areas (t :: rest) loc s
  = (Ok loc, (run_actions (others t) s).2)
  /\ _motion_stop_evt (run_actions (others t) s).2 = true.
Proof.
  intros Hstop; split; [apply motion_loop_stopped; exact Hstop|].
  destruct (stop_event_stays_set (others t) s Hstop) as (rs & s1 & -> & Hs1).
  exact Hs1.
Qed.
End MotionStop.

(** *** From the request to the end of the session *)

Lemma record_to_sink_result d path (s : state) v :
  (record_to_sink d path s).1 = Ok v -> v = Some path.
Proof.
  unfold record_to_sink; unfold_thread; simpl.
  repeat step; simpl; congruence.
Qed.

Lemma session_result d ts (s : state) v :
  (record_clip_session d ts s).1 = Ok v ->
  v = Some (path_join (base_dir s) ("clip_" ++ ts ++ ".mp4")%string).
Proof.
  unfold record_clip_session, try_finally_local, attempt, bind, gets; simpl.
  set (path := path_join (base_dir s) ("clip_" ++ ts ++ ".mp4")%string).
  destruct (open_sink path s) as [[sink|e] s1] eqn:Hopen; simpl.
  - assert (sink = path) as ->.
    { revert Hopen; unfold open_sink.
      destruct (new_encoder (picam2 s)) as [[] d1]; [|congruence].
      destruct (new_output d1) as [[] d2]; congruence. }
    pose proof (record_to_sink_result d path s1) as Hres.
    destruct (record_to_sink d path s1) as [[w|e] s2]; simpl in *.
    + specialize (Hres w eq_refl); subst w.
      destruct (release_session (Some path) s2) as [[[]|e] s3]; simpl; congruence.
    + destruct (release_session (Some path) s2) as [[[]|e'] s3]; simpl; congruence.
  - destruct (release_session None s1) as [[[]|e'] s3]; simpl; congruence.
Qed.

(** X8: on an idle manager, a request followed by the two steps of the
    worker it started is accepted, appends one worker that ends finished,
    and leaves the manager idle again whatever the camera did; when the
    worker returned a value, the value is the path [clip_<ts>.mp4] under
    the media directory. *)
Theorem accepted_request_runs_to_idle (s : state) (d : Z) (ts : string) :
  _recording s = false ->
  let n := List.length (workers s) in
  let path := path_join (base_dir s) ("clip_" ++ ts ++ ".mp4")%string in
  let '(replies, s') :=
    run_actions [RequestClip d; WorkerEnter n; WorkerFinish n ts] s in
  replies = Ok [Accepted (Ok true); Silent; Silent]
  /\ _recording s' = false
  /\ exists r,
      workers s' = workers s ++ [Finished r]
      /\ (forall v, r = Ok v -> v = Some path).
Proof.
  intros Hidle; simpl.
  unfold run_action, start_record_clip_async, spawn, record_clip,
    record_clip_enter, set_worker, set_flag, with_lock, try_finally,
    attempt, reraise, emit, modify, gets, bind, ret; simpl.
  rewrite Hidle; simpl.
  rewrite lookup_app_r, Nat.sub_diag by reflexivity; simpl.
  rewrite Hidle; simpl.
  rewrite list_lookup_insert_eq
    by (rewrite List.length_app; simpl; lia); simpl.
  match goal with
  | |- context [record_clip_session d ts ?s0] =>
      pose proof (session_end d ts s0) as [F W];
      pose proof (session_result d ts s0) as Hres;
      destruct (record_clip_session d ts s0) as [r s2]
  end; simpl in *.
  repeat split; auto.
  exists r; split; [|exact Hres].
  rewrite W; simpl.
  rewrite list_insert_insert_eq.
  replace (List.length (workers s)) with (List.length (workers s) + 0)%nat by lia.
  rewrite insert_app_r; reflexivity.
Qed.

End Backend.

(** *** Runs on the scripted backend *)

(** Two requests made back to back on a fresh manager are both accepted;
    the worker of the second finds the session taken and returns [None]:
    nothing is recorded for it. *)
Example two_accepted_one_recorded :
  let '(replies, s) :=
    run_actions [RequestClip 30; RequestClip 30; WorkerEnter 0; WorkerEnter 1]
      (fresh healthy) in
  replies = Ok [Accepted (Ok true); Accepted (Ok true); Silent; Silent]
  /\ workers s = [Recording 30; Finished (Ok None)]
  /\ _recording s = true.
Proof. vm_compute; auto. Qed.



(** C3 at a recording whose stop-recording raises. *)
Lemma recording_always_releases_session_witness :
  let s := fresh (failing [true; true; true; false]) in
  let clip := "/srv/media/clip_20260101_120000.mp4"%string in
  (exists body,
      events_of (record_clip 30 "20260101_120000") s
      = [Acquire RecordLock; SetRecording true; Release RecordLock]
        ++ body
        ++ [Acquire RecordLock; SetRecording false; Release RecordLock]
      /\ (forall flag, ~ In (SetRecording flag) body)
      /\ (In (NewOutput clip true) body -> output_has_close = true ->
          exists ok, last body = Some (CloseOutput clip ok))
      /\ (output_has_close = false ->
          forall p ok, ~ In (CloseOutput p ok) body))
  /\ _recording (record_clip 30 "20260101_120000" s).2 = false
  /\ (start_record_clip_async 5 (record_clip 30 "20260101_120000" s).2).1
     = Ok true.
Proof.
  exact (recording_always_releases_session
           (fresh (failing [true; true; true; false]))
           30 "20260101_120000" 5 eq_refl).
Defined.

(** C3 does not hold as stated: a sink that exposes no [close] is built, used and
    never closed; the session is released all the same. *)
Lemma sink_without_close_is_never_closed :
  let s := fresh healthy in
  let clip := "/srv/media/clip_20260101_120000.mp4"%string in
  let work := @record_clip sim nat (scripted false) 30 "20260101_120000" in
  (work s).1 = Ok (Some clip)
  /\ events_of work s
     = [Acquire RecordLock; SetRecording true; Release RecordLock;
        NewEncoder true; NewOutput clip true;
        Acquire CameraLock; Device StartRecording true; Release CameraLock;
        Sleep 30;
        Acquire CameraLock; Device StopRecording true; Release CameraLock;
        RestartCamera; Acquire CameraLock; Device StopRecording true;
        Device Stop true; Device Configure true; Device Start true;
        Release CameraLock;
        Acquire RecordLock; SetRecording false; Release RecordLock]
  /\ _recording (work s).2 = false.
Proof. vm_compute; auto. Qed.

(** C4 on a run: motion at every pass; the passes at 101 and 142 trigger,
    the passes at 120 and 141 fall into the cooldown of the first. *)
Example motion_loop_sample :
  let pass t := {| others := [PreviewStep]; now := t |} in
  motion_triggers
    (events_of
       (_motion_loop sim_smooth sim_areas
          [pass 100%Q; pass 101%Q; pass 120%Q; pass 141%Q; pass 142%Q]
          motion_start)
       (fresh healthy))
  = [(101%Q, 30%Z, true); (142%Q, 30%Z, true)].
Proof. vm_compute; reflexivity. Qed.

(** C4 does not hold as stated: the deadline is a local of the loop.  A first
    motion thread triggers at 101 and its clip is recorded; motion is
    switched off, the thread exits, and motion is switched on again: the
    new thread starts with the deadline at 0 and triggers at 135, less
    than forty seconds after the trigger at 101. *)
Lemma toggling_motion_restarts_cooldown :
  let pass t := {| others := [PreviewStep]; now := t |} in
  let clip := "/srv/media/clip_20260101_120000.mp4"%string in
  let s1 :=
    (_motion_loop sim_smooth sim_areas
       [pass 100%Q; pass 101%Q;
        {| others := [WorkerEnter 0; WorkerFinish 0 "20260101_120000"];
           now := 132 |}]
       motion_start (Switch.camera watching)).2 in
  let off :=
    Switch.motion_thread_exits
      (Switch.disable_motion
         {| Switch.camera := s1;
            Switch._motion_enabled := Switch._motion_enabled watching;
            Switch._motion_thread := Switch._motion_thread watching;
            Switch.motion_threads := Switch.motion_threads watching |}) in
  let on := Switch.enable_motion off in
  let s2 :=
    (_motion_loop sim_smooth sim_areas [pass 134%Q; pass 135%Q]
       motion_start (Switch.camera on)).2 in
  Switch._motion_thread off = Some false
  /\ Switch.motion_threads on = 2%nat
  /\ motion_triggers (events_since (Switch.camera watching) s2)
     = [(101%Q, 30%Z, true); (135%Q, 30%Z, true)]
  /\ workers s2 = [Finished (Ok (Some clip)); Ready 30]
  /\ (135 - 101 < COOLDOWN)%Q.
Proof. vm_compute; auto. Qed.

(** C5 at an empty slot: the frame comes from the device. *)
Lemma capture_still_reads_slot_or_pulls_witness :
  (capture_still "20260101_120000" (fresh healthy)).1
  = Ok "/srv/media/still_20260101_120000.jpg"%string
  /\ disk (capture_still "20260101_120000" (fresh healthy)).2
       !! "/srv/media/still_20260101_120000.jpg"%string
     = Some 0%nat.
Proof.
  pose proof (capture_still_reads_slot_or_pulls
                (fresh healthy) "20260101_120000") as H.
  destruct (capture_still "20260101_120000" (fresh healthy)) as [r s'].
  destruct (H 0%nat {| script := []; next_frame := 1 |} eq_refl)
    as (Hr & _ & Hd & _).
  split; [exact Hr|].
  simpl; rewrite Hd; apply lookup_insert_eq.
Defined.

(** C6 does not hold as stated: a failure of configure is not caught in the
    restart sequence; it is raised to the caller and start is skipped. *)
Lemma failed_configure_is_raised :
  let s := fresh (failing [true; true; false]) in
  (_restart_camera s).1 = Raise (DeviceError Configure)
  /\ events_of _restart_camera s
     = [RestartCamera; Acquire CameraLock; Device StopRecording true;
        Device Stop true; Device Configure false; Release CameraLock].
Proof. split; vm_compute; reflexivity. Qed.

(** C7 does not hold as stated: two stills taken within the same second get the
    same path, and the media directory gains one file, not two. *)
Lemma same_second_stills_share_one_file :
  let '(r1, s1) := capture_still "20260101_120000" previewing in
  let '(r2, s2) := capture_still "20260101_120000" s1 in
  r1 = Ok "/srv/media/still_20260101_120000.jpg"%string
  /\ r2 = r1
  /\ size (disk previewing) = 0%nat
  /\ size (disk s2) = 1%nat.
Proof. vm_compute; auto. Qed.

Lemma repeated_still_rereads_frame_witness :
  let p1 := path_join "/srv/media" "still_20260101_120000.jpg" in
  let p2 := path_join "/srv/media" "still_20260101_120001.jpg" in
  let '(r1, s1) := capture_still "20260101_120000" previewing in
  let '(r2, s2) := capture_still "20260101_120001" s1 in
  (r1 = Ok p1 /\ r2 = Ok p2)
  /\ _preview_frame s1 = Some 0%nat
  /\ disk s2 = <[p2 := 0%nat]> (<[p1 := 0%nat]> (disk previewing))
  /\ (disk s2 !! p1 = Some 0%nat /\ disk s2 !! p2 = Some 0%nat)
  /\ (p1 = p2 <-> "20260101_120000"%string = "20260101_120001"%string)
  /\ (disk previewing !! p1 = None -> disk previewing !! p2 = None ->
      size (disk s2)
      = (size (disk previewing)
         + (if decide ("20260101_120000"%string = "20260101_120001"%string)
            then 1 else 2))%nat).
Proof.
  exact (repeated_still_rereads_frame previewing 0%nat
           "20260101_120000" "20260101_120001" eq_refl).
Defined.


(** The locking rules reject a call of the camera made without the
    camera lock, a second lock taken while one is held, and a sleep under
    a lock. *)
Example run_locks_rejects :
  run_locks None [Device Start true] = None
  /\ run_locks None [Acquire FrameLock; Acquire CameraLock] = None
  /\ run_locks None [Acquire CameraLock; Sleep 1; Release CameraLock] = None.
Proof. repeat split. Qed.

(** X3 at a camera whose first pull raises: the restart succeeds. *)
Lemma preview_pass_publishes_or_recovers_witness :
  let s := fresh (failing [false]) in
  let '(r, s') := _preview_iter s in
  r = Ok true
  /\ _preview_running s' = true
  /\ same_session s s'
  /\ disk s' = disk s
  /\ _preview_frame s' = _preview_frame s
  /\ events_since s s'
     = [Acquire FrameLock; Release FrameLock;
        Acquire CameraLock; Device CaptureArray false; Release CameraLock;
        Sleep (1 # 10);
        RestartCamera; Acquire CameraLock; Device StopRecording true;
        Device Stop true; Device Configure true; Device Start true;
        Release CameraLock].
Proof.
  exact (preview_pass_publishes_or_recovers (fresh (failing [false])) eq_refl).
Defined.

(** X4 over three passes, the second of which fails to pull and to
    restart. *)
Lemma preview_loop_never_stops_witness :
  let s := fresh (failing [true; false; true; true; false]) in
  let '(r, s') := _preview_loop 3 s in
  r = Ok true
  /\ _preview_running s' = true
  /\ same_session s s'
  /\ disk s' = disk s
  /\ List.length (frame_pulls (events_since s s')) = 3%nat.
Proof.
  exact (preview_loop_never_stops 3
           (fresh (failing [true; false; true; true; false])) eq_refl).
Defined.

Lemma capture_still_failed_pull_writes_nothing_witness :
  let s := fresh (failing [false]) in
  let '(r, s') := capture_still "20260101_120000" s in
  r = Raise (DeviceError CaptureArray)
  /\ disk s' = disk s
  /\ _preview_frame s' = None
  /\ same_session s s'
  /\ events_since s s'
     = [Acquire FrameLock; Release FrameLock;
        Acquire CameraLock; Device CaptureArray false; Release CameraLock].
Proof.
  exact (capture_still_failed_pull_writes_nothing (fresh (failing [false]))
           "20260101_120000" healthy eq_refl eq_refl).
Defined.

Lemma busy_record_clip_changes_nothing_witness :
  record_clip 30 "20260101_120000" mid_recording
  = (Ok None,
     advance (picam2 mid_recording) [Acquire RecordLock; Release RecordLock]
       mid_recording).
Proof.
  exact (busy_record_clip_changes_nothing mid_recording 30 "20260101_120000"
           eq_refl).
Defined.

Lemma stopped_motion_loop_leaves_witness :
  let t := {| others := [PreviewStep]; now := 100 |} in
  _motion_loop sim_smooth sim_areas [t; t] motion_start motion_off
  = (Ok motion_start, (run_actions [PreviewStep] motion_off).2)
  /\ _motion_stop_evt (run_actions [PreviewStep] motion_off).2 = true.
Proof.
  exact (stopped_motion_loop_leaves sim_smooth sim_areas
           {| others := [PreviewStep]; now := 100 |}
           [{| others := [PreviewStep]; now := 100 |}]
           motion_start motion_off eq_refl).
Defined.

Lemma accepted_request_runs_to_idle_witness :
  let '(replies, s') :=
    run_actions [RequestClip 30; WorkerEnter 0; WorkerFinish 0 "20260101_120000"]
      (fresh healthy) in
  replies = Ok [Accepted (Ok true); Silent; Silent]
  /\ _recording s' = false
  /\ exists r,
      workers s' = [] ++ [Finished r]
      /\ (forall v, r = Ok v ->
          v = Some (path_join "/srv/media" "clip_20260101_120000.mp4")).
Proof.
  exact (accepted_request_runs_to_idle (fresh healthy) 30 "20260101_120000"
           eq_refl).
Defined.

End CameraSpec.

(** ** The motion switch *)

Module SwitchSpec.
Import Camera Camera.Switch.

Section Server.
Context {D Frame : Type} `{!Picamera2 D Frame}.
#[local] Abbreviation server := (server D Frame).

(** X10: [enable_motion] sets the flag and leaves exactly one live motion
    thread.  When no thread is alive it clears the stop event and starts
    a thread; when one is alive it starts none and leaves the stop event
    as it is.  Nothing else of the manager changes, and a second call
    changes nothing. *)
Theorem enable_motion_starts_one_worker (sv : server) :
  let alive := bool_decide (_motion_thread sv = Some true) in
  let sv' := enable_motion sv in
  enable_motion sv' = sv'
  /\ _motion_thread sv' = Some true
  /\ _motion_enabled sv' = true
  /\ motion_threads sv'
     = (motion_threads sv + (if alive then 0 else 1))%nat
  /\ _motion_stop_evt (camera sv')
     = (if alive then _motion_stop_evt (camera sv) else false)
  /\ (forall b, set_motion_stop_evt b (camera sv')
                = set_motion_stop_evt b (camera sv)).
Proof.
  unfold enable_motion.
  destruct (_motion_thread sv) as [[]|] eqn:E; simpl; rewrite ?E;
    repeat split; try lia.
Qed.

Section MotionToggle.
Context {Gray : Type}
  (smooth : Frame -> Gray) (contour_areas : Gray -> Gray -> list Q).

(** X11: switching motion off and on again before the motion thread has
    seen the stop event leaves the event set: [enable_motion] finds the
    thread alive, so it neither clears the event nor starts a thread; the
    thread then leaves at its next test, and the manager reports motion
    as enabled while no motion thread is alive. *)
Theorem reenable_before_exit_still_stops (sv : server)
    (t : tick) (rest : list tick) (loc : @motion_locals Gray) :
  _motion_thread sv = Some true ->
  let sv' := enable_motion (disable_motion sv) in
  _motion_enabled sv' = true
  /\ motion_threads sv' = motion_threads sv
  /\ _motion_stop_evt (camera sv') = true
  /\ (_motion_loop smooth contour_areas (t :: rest) loc (camera sv')).1 = Ok loc
  /\ _motion_thread (motion_thread_exits sv') = Some false
  /\ _motion_enabled (motion_thread_exits sv') = true.
Proof.
  intros Halive sv'.
  assert (E : sv' = {| camera := set_motion_stop_evt true (camera sv);
                       _motion_enabled := true;
                       _motion_thread := Some true;
                       motion_threads := motion_threads sv |}).
  { unfold sv', enable_motion, disable_motion; simpl; rewrite Halive.
    reflexivity. }
  rewrite E; clear E sv'.
  split; [reflexivity|]. split; [reflexivity|]. split; [reflexivity|].
  split; [|split; reflexivity].
  rewrite CameraSpec.motion_loop_stopped by reflexivity; reflexivity.
Qed.

End MotionToggle.
End Server.

Lemma reenable_before_exit_still_stops_witness :
  let t := {| others := [PreviewStep]; now := 100 |} in
  let sv' := enable_motion (disable_motion watching) in
  _motion_enabled sv' = true
  /\ motion_threads sv' = motion_threads watching
  /\ _motion_stop_evt (camera sv') = true
  /\ (_motion_loop sim_smooth sim_areas [t] motion_start (camera sv')).1
     = Ok motion_start
  /\ _motion_thread (motion_thread_exits sv') = Some false
  /\ _motion_enabled (motion_thread_exits sv') = true.
Proof.
  exact (reenable_before_exit_still_stops sim_smooth sim_areas watching
           {| others := [PreviewStep]; now := 100 |} [] motion_start eq_refl).
Defined.

End SwitchSpec.

(** ** The media index *)

Module MediaSpec.
Import Py Camera.
#[local] Open Scope string_scope.

Lemma lower_app a b : lower (a ++ b) = lower a ++ lower b.
Proof. induction a as [|c a IH]; simpl; [|rewrite IH]; reflexivity. Qed.

Lemma drop_chars_app a b : drop_chars (String.length a) (a ++ b) = b.
Proof. induction a as [|c a IH]; [destruct b|]; auto. Qed.

Lemma length_app (a b : string) :
  String.length (a ++ b) = (String.length a + String.length b)%nat.
Proof. induction a as [|c a IH]; simpl; [|rewrite IH]; reflexivity. Qed.

Lemma endswith_app a suffix : endswith suffix (a ++ suffix) = true.
Proof.
  unfold endswith; rewrite length_app.
  replace (String.length a + String.length suffix - String.length suffix)%nat
    with (String.length a) by lia.
  rewrite drop_chars_app, String.eqb_refl, andb_true_r.
  apply Nat.leb_le; lia.
Qed.

Lemma append_assoc (a b c : string) : (a ++ b) ++ c = a ++ (b ++ c).
Proof.
  induction a as [|x a IH]; [reflexivity|].
  change (String x ((a ++ b) ++ c) = String x (a ++ (b ++ c))).
  rewrite IH; reflexivity.
Qed.

Lemma insert_sorted_In x y l : In y (insert_sorted x l) <-> y = x \/ In y l.
Proof.
  induction l as [|z l IH]; simpl; [intuition|].
  destruct (String.leb x z); simpl; rewrite ?IH; intuition.
Qed.

Lemma sorted_In y l : In y (sorted l) <-> In y l.
Proof.
  induction l as [|x l IH]; simpl; [tauto|].
  rewrite insert_sorted_In, IH; intuition.
Qed.

Lemma ascii_compare_lt_trans x y z :
  Ascii.compare x y = Lt -> Ascii.compare y z <> Gt -> Ascii.compare x z = Lt.
Proof.
  unfold Ascii.compare; intros Hxy Hyz.
  apply N.compare_lt_iff in Hxy; apply N.compare_lt_iff.
  destruct (N.compare_spec (N_of_ascii y) (N_of_ascii z)) as [E|L|G];
    [rewrite <- E; exact Hxy | exact (N.lt_trans _ _ _ Hxy L) | congruence].
Qed.

Lemma compare_le_trans a : forall b c,
  String.compare a b <> Gt -> String.compare b c <> Gt ->
  String.compare a c <> Gt.
Proof.
  induction a as [|x a IH]; intros [|y b] [|z c]; simpl; try congruence.
  destruct (Ascii.compare x y) eqn:Exy; [| |congruence].
  - apply Ascii.compare_eq_iff in Exy as ->.
    destruct (Ascii.compare y z); [apply IH | congruence | congruence].
  - intros _ Hyz.
    assert (Hyz' : Ascii.compare y z <> Gt).
    { destruct (Ascii.compare y z); congruence. }
    rewrite (ascii_compare_lt_trans x y z Exy Hyz'); congruence.
Qed.

Lemma le_str_trans a b c : le_str a b -> le_str b c -> le_str a c.
Proof.
  unfold le_str, String.leb; intros Hab Hbc.
  pose proof (compare_le_trans a b c) as H.
  destruct (String.compare a b), (String.compare b c), (String.compare a c);
    try reflexivity; try discriminate; exfalso; apply H; congruence.
Qed.

Lemma append_nil_r (a : string) : a ++ "" = a.
Proof.
  induction a as [|x a IH]; [reflexivity|].
  change (String x (a ++ "") = String x a); rewrite IH; reflexivity.
Qed.

Lemma Sorted_filter (p : string -> bool) l :
  Sorted le_str l -> Sorted le_str (List.filter p l).
Proof.
  intros Hs; apply Sorted_StronglySorted in Hs;
    [|intros a b c; apply le_str_trans].
  apply StronglySorted_Sorted.
  induction Hs as [|x l Hl IH Hx]; simpl; [constructor|].
  destruct (p x); [|exact IH].
  constructor; [exact IH|].
  rewrite List.Forall_forall in *; intros y Hy.
  apply List.filter_In in Hy as [Hy _]; auto.
Qed.

Lemma insert_sorted_Sorted x l :
  Sorted le_str l -> Sorted le_str (insert_sorted x l).
Proof.
  induction 1 as [|y l Hl IH Hy]; simpl; [repeat constructor|].
  destruct (String.leb x y) eqn:E.
  - repeat constructor; auto.
  - constructor; [exact IH|].
    assert (Hyx : le_str y x).
    { destruct (String.leb_total x y) as [H|H]; [congruence|exact H]. }
    destruct Hy as [|z l' Hz]; simpl; [repeat constructor; auto|].
    destruct (String.leb x z); constructor; auto.
Qed.

Lemma sorted_Sorted l : Sorted le_str (sorted l).
Proof.
  induction l as [|x l IH]; simpl; [constructor|].
  apply insert_sorted_Sorted, IH.
Qed.

Lemma join_cons (p : string) (l : list string) :
  join "" (p :: l) = p ++ join "" l.
Proof. destruct l; [symmetry; apply append_nil_r | reflexivity]. Qed.

Lemma join_app (l1 l2 : list string) :
  join "" (l1 ++ l2) = join "" l1 ++ join "" l2.
Proof.
  induction l1 as [|p l1 IH]; [reflexivity|].
  rewrite <- app_comm_cons, !join_cons, IH, append_assoc; reflexivity.
Qed.

Lemma listed_is_linked base listing f :
  In f (media_items listing) ->
  exists before after,
    media_index base listing = before ++ media_link f ++ after.
Proof.
  intros Hin; unfold media_index.
  apply in_split in Hin as (l1 & l2 & ->).
  rewrite map_app, map_cons.
  set (header := [_]).
  rewrite !join_app, (join_cons (media_link f)).
  exists (join "" header ++ join "" (map media_link l1)),
    (join "" (map media_link l2) ++ join "" ["</ul>"]).
  generalize (join "" header), (join "" (map media_link l1)),
    (join "" (map media_link l2)), (join "" ["</ul>"]), (media_link f).
  intros A B C E F; rewrite !append_assoc; reflexivity.
Qed.

Lemma endswith_spec (x s : string) :
  endswith x s = true <-> exists stem, s = stem ++ x.
Proof.
  split; [|intros [stem ->]; apply endswith_app].
  unfold endswith; intros H; apply andb_true_iff in H as [_ H].
  apply String.eqb_eq in H.
  destruct (DashboardSpec.drop_chars_suffix
              (String.length s - String.length x) s) as [stem Hs].
  exists stem; rewrite <- H; exact Hs.
Qed.

(** X19: the media index lists exactly the names of the media directory
    that end, letter case apart, in [.jpg], [.jpeg], [.png], [.gif],
    [.mp4] or [.h264], in the order of [sorted]; so it lists every still
    and every clip that the manager writes ([still_<ts>.jpg],
    [clip_<ts>.mp4]) once the directory holds it, and no name without
    such an ending.  Every listed name is in the page, as a link to
    [/media/<name>]. *)
Theorem media_index_lists_stills_and_clips
    (base : string) (listing : list string) (ts : string) :
  let still := "still_" ++ ts ++ ".jpg" in
  let clip := "clip_" ++ ts ++ ".mp4" in
  (forall f,
      In f (media_items listing)
      <-> In f listing
          /\ exists stem x,
              In x [".jpg"; ".jpeg"; ".png"; ".gif"; ".mp4"; ".h264"]
              /\ lower f = stem ++ x)
  /\ Sorted le_str (media_items listing)
  /\ (In still listing -> In still (media_items listing))
  /\ (In clip listing -> In clip (media_items listing))
  /\ (forall f, In f (media_items listing) ->
      exists before after,
        media_index base listing = before ++ media_link f ++ after).
Proof.
  intros still clip; unfold media_items.
  split; [|split; [|split; [|split]]].
  - intros f; rewrite List.filter_In, sorted_In, List.existsb_exists.
    split.
    + intros [Hf (x & Hx & Hend)]; split; [exact Hf|].
      apply endswith_spec in Hend as [stem Hstem]; exists stem, x; auto.
    + intros [Hf (stem & x & Hx & Hstem)]; split; [exact Hf|].
      exists x; split; [exact Hx|]; apply endswith_spec; eauto.
  - apply Sorted_filter, sorted_Sorted.
  - intros Hin; apply List.filter_In; split; [apply sorted_In; exact Hin|].
    unfold still; rewrite <- append_assoc, lower_app.
    change (lower ".jpg") with ".jpg".
    simpl; rewrite endswith_app; reflexivity.
  - intros Hin; apply List.filter_In; split; [apply sorted_In; exact Hin|].
    unfold clip; rewrite <- append_assoc, lower_app.
    change (lower ".mp4") with ".mp4".
    unfold MEDIA_SUFFIXES, existsb; rewrite endswith_app, !orb_true_r.
    reflexivity.
  - intros f Hf; apply listed_is_linked; exact Hf.
Qed.

(** The names are compared without regard to case, and listed in the
    order of the code points: capitals first. *)
Example media_items_sample :
  media_items ["b.MP4"; "notes.txt"; "a.jpg"; "still_1.jpg"; "B.png"]
  = ["B.png"; "a.jpg"; "b.MP4"; "still_1.jpg"].
Proof. reflexivity. Qed.

End MediaSpec.
